(** * The daemon bootstrap and its shutdown coordinator (cmd/ipfs/daemon.go)

    A shallow embedding of [daemonFunc], [mountHTTPapi], [mountHTTPgw],
    [mountFuse] and [merge].  Sequential code is written in a state monad
    over a [World] with early return; the goroutines of [merge] and of the
    supervising [range] loop are a labelled transition system.

    Left out: the goroutine that prints a line when the context is done,
    the log lines ([log.Error], [log.Info]) and the help text of the
    command; none of them touches the state the properties are about. *)

From Stdlib Require Import ZArith Lia Bool.
From stdpp Require Import base gmap strings list.

Local Open Scope list_scope.

(** ** Go values *)

(** Go's [error] interface: [None] is [nil], [Some msg] a non-nil error. *)
Definition error := option string.

(** A Go pair [(value, err)]. *)
Inductive result (A : Type) :=
| Ok (a : A)
| Err (msg : string).
Arguments Ok {A} a.
Arguments Err {A} msg.

(** [strings.HasPrefix(s, prefix)]. *)
Fixpoint HasPrefix (s pre : string) {struct pre} : bool :=
  match pre with
  | EmptyString => true
  | String c pre' =>
      match s with
      | EmptyString => false
      | String d s' => if Ascii.eqb c d then HasPrefix s' pre' else false
      end
  end.

(** ** Keywords of the command *)

Definition initOptionKwd := "init".
Definition routingOptionKwd := "routing".
Definition routingOptionSupernodeKwd := "supernode".
Definition mountKwd := "mount".
Definition writableKwd := "writable".
Definition ipfsMountKwd := "mount-ipfs".
Definition ipnsMountKwd := "mount-ipns".
Definition unrestrictedApiAccess := "unrestricted-api".

(** ** Configuration, repository, node *)

Record Config := {
  Addresses_API : string;
  Addresses_Gateway : string;
  Gateway_Writable : bool;
  Gateway_RootRedirect : string;
  Mounts_IPFS : string;
  Mounts_IPNS : string;
  SupernodeRouting_Servers : list string
}.

(** An [IPFSAddr]: the methods [ID()] and [Transport()]. *)
Record IPFSAddr := {
  addr_ID : string;
  addr_Transport : string
}.

(** [peer.PeerInfo]. *)
Record PeerInfo := {
  ID : string;
  Addrs : list string
}.

(** What the node builder was told about routing: nothing (the builder's
    standard discovery) or [corerouting.SupernodeClient(infos...)]. *)
Inductive RoutingOption :=
| Default
| FixedPeerSet (infos : list PeerInfo).

(** A repository on disk. *)
Record Repo := {
  repo_corrupt : bool;
  repo_config : Config
}.

(** An open repository: the handle [fsrepo.Open] returns. *)
Record FSRepo := {
  fsrepo_path : string;
  fsrepo_Config : Config               (* repo.Config() *)
}.

Record NodeBuilder := {
  nb_online : bool;
  nb_repo : option FSRepo;
  nb_routing : RoutingOption
}.

Record IpfsNode := {
  node_online : bool;
  node_repo : option FSRepo;
  node_routing : RoutingOption
}.

(** ** Serving pipelines *)

Record GatewayConfig := {
  Writable : bool;
  BlockList_Decider : string -> bool
}.

Inductive ServeOption :=
| CommandsOption
| WebUIOption
| GatewayServeOption (c : GatewayConfig)
| VersionOption
| defaultMux (path : string)
| RedirectOption (path redirect : string)
| IPNSHostnameOption
| GatewayOption (writable : bool).

Inductive Service := API | Gateway.

#[global] Instance Service_eq_dec : EqDecision Service.
Proof. solve_decision. Defined.

(** ** Error signals

    A value of type [<-chan error] is [nil] or a channel.  A channel is
    described by what its producer will do with it: the values it sends, in
    order, and whether it closes the channel afterwards. *)
Inductive ErrorSignal :=
| nil_chan
| chan (pending : list error) (closes : bool).

(** ** The world the daemon runs in *)

Record World := {
  repos : gmap string Repo;            (* initialised repositories, by path *)
  locks : gset string;                 (* repository locks currently held *)
  listeners : list (Service * string); (* listeners bound, with bound address *)
  serving : list (Service * list ServeOption); (* goroutines in corehttp.Serve *)
  mounted : list (string * string);    (* fuse mounts (ipfs dir, ipns dir) *)
  closed_nodes : list IpfsNode;        (* nodes on which Close() has run *)
  ConstructNode : result IpfsNode;     (* req.Context().ConstructNode *)
  stdout : list string;
  res_error : error                    (* res.SetError *)
}.

(** The request and the collaborators outside this file. *)
Record Request := {
  Option_Bool : string -> bool * bool * error;     (* req.Option(k).Bool() *)
  Option_String : string -> string * bool * error; (* req.Option(k).String() *)
  ConfigRoot : string;
  GetConfig : result Config
}.

Record Collaborators := {
  WebUIPaths : list string;                          (* corehttp.WebUIPaths *)
  initWithDefaults : string -> gmap string Repo -> error * gmap string Repo;
  ParseIPFSAddr : string -> result IPFSAddr;
  nb_Build : NodeBuilder -> error;                   (* nil: the node is built *)
  NewMultiaddr : string -> result string;            (* ma.NewMultiaddr *)
  manet_Listen : string -> result string;            (* the bound address *)
  corehttp_Serve : Service -> option error;          (* None: never returns *)
  commands_Mount : string -> string -> error
}.

(** ** A state monad with early return

    [Err msg] is "the function has returned, reporting [msg]". *)
Definition M (A : Type) := World -> result A * World.

Definition ret {A} (a : A) : M A := fun w => (Ok a, w).

Definition bind {A B} (m : M A) (k : A -> M B) : M B :=
  fun w =>
    match m w with
    | (Ok a, w') => k a w'
    | (Err msg, w') => (Err msg, w')
    end.

#[global] Instance M_ret : MRet M := @ret.
#[global] Instance M_bind : MBind M := fun A B k m => bind m k.

(** [if err != nil { return wrap(err) }] *)
Definition check (wrap : string -> string) (err : error) : M unit :=
  fun w =>
    match err with
    | None => (Ok tt, w)
    | Some msg => (Err (wrap msg), w)
    end.

(** [v, err := f(); if err != nil { return wrap(err) }] *)
Definition try {A} (wrap : string -> string) (r : result A) : M A :=
  fun w =>
    match r with
    | Ok a => (Ok a, w)
    | Err msg => (Err (wrap msg), w)
    end.

(** Before returning with an error, do [cleanup]. *)
Definition on_error {A} (cleanup : World -> World) (m : M A) : M A :=
  fun w =>
    match m w with
    | (Ok a, w') => (Ok a, w')
    | (Err msg, w') => (Err msg, cleanup w')
    end.

(** *** Updates of the world *)

Definition set_repos (f : gmap string Repo -> gmap string Repo) (w : World) :=
  {| repos := f (repos w); locks := locks w; listeners := listeners w;
     serving := serving w; mounted := mounted w;
     closed_nodes := closed_nodes w; ConstructNode := ConstructNode w;
     stdout := stdout w; res_error := res_error w |}.

Definition set_locks (f : gset string -> gset string) (w : World) :=
  {| repos := repos w; locks := f (locks w); listeners := listeners w;
     serving := serving w; mounted := mounted w;
     closed_nodes := closed_nodes w; ConstructNode := ConstructNode w;
     stdout := stdout w; res_error := res_error w |}.

Definition add_listener (l : Service * string) (w : World) :=
  {| repos := repos w; locks := locks w; listeners := listeners w ++ [l];
     serving := serving w; mounted := mounted w;
     closed_nodes := closed_nodes w; ConstructNode := ConstructNode w;
     stdout := stdout w; res_error := res_error w |}.

Definition add_serving (s : Service * list ServeOption) (w : World) :=
  {| repos := repos w; locks := locks w; listeners := listeners w;
     serving := serving w ++ [s]; mounted := mounted w;
     closed_nodes := closed_nodes w; ConstructNode := ConstructNode w;
     stdout := stdout w; res_error := res_error w |}.

Definition add_mounted (m : string * string) (w : World) :=
  {| repos := repos w; locks := locks w; listeners := listeners w;
     serving := serving w; mounted := mounted w ++ [m];
     closed_nodes := closed_nodes w; ConstructNode := ConstructNode w;
     stdout := stdout w; res_error := res_error w |}.

Definition add_closed_node (n : IpfsNode) (w : World) :=
  {| repos := repos w; locks := locks w; listeners := listeners w;
     serving := serving w; mounted := mounted w;
     closed_nodes := closed_nodes w ++ [n]; ConstructNode := ConstructNode w;
     stdout := stdout w; res_error := res_error w |}.

Definition set_ConstructNode (c : result IpfsNode) (w : World) :=
  {| repos := repos w; locks := locks w; listeners := listeners w;
     serving := serving w; mounted := mounted w;
     closed_nodes := closed_nodes w; ConstructNode := c;
     stdout := stdout w; res_error := res_error w |}.

Definition add_stdout (line : string) (w : World) :=
  {| repos := repos w; locks := locks w; listeners := listeners w;
     serving := serving w; mounted := mounted w;
     closed_nodes := closed_nodes w; ConstructNode := ConstructNode w;
     stdout := stdout w ++ [line]; res_error := res_error w |}.

Definition set_res_error (e : error) (w : World) :=
  {| repos := repos w; locks := locks w; listeners := listeners w;
     serving := serving w; mounted := mounted w;
     closed_nodes := closed_nodes w; ConstructNode := ConstructNode w;
     stdout := stdout w; res_error := e |}.

Definition Printf (line : string) : M unit :=
  fun w => (Ok tt, add_stdout line w).

(** ** The launchers *)

(** The [Decider] closure of the API gateway's block list. *)
Definition Decider (unrestricted : bool) (webuipaths : list string)
    (s : string) : bool :=
  if unrestricted then true
  else
    (fix range (paths : list string) : bool :=
       match paths with
       | [] => false
       | webuipath :: rest =>
           if HasPrefix s webuipath then true else range rest
       end) webuipaths.

(** What a goroutine does with the channel it was given. *)
Inductive chan_op :=
| Send (e : error)
| Close.

(** The body of the goroutine both launchers start:
    [errc <- corehttp.Serve(node, lis, opts...)].  [serve] is [None] when
    [Serve] never returns. *)
Definition launcher_goroutine (serve : option error) : list chan_op :=
  match serve with
  | Some e => [Send e]
  | None => []
  end.

(** The values a goroutine sends before its first [close]. *)
Fixpoint sent_values (ops : list chan_op) : list error :=
  match ops with
  | [] => []
  | Send e :: rest => e :: sent_values rest
  | Close :: _ => []
  end.

Fixpoint closes_chan (ops : list chan_op) : bool :=
  match ops with
  | [] => false
  | Send _ :: rest => closes_chan rest
  | Close :: _ => true
  end.

(** [errc := make(chan error); go func() { body }()] *)
Definition make_chan (body : list chan_op) : ErrorSignal :=
  chan (sent_values body) (closes_chan body).

Definition manet_listen (E : Collaborators) (svc : Service)
    (wrap : string -> string) (maddr : string) : M string :=
  fun w =>
    match manet_Listen E maddr with
    | Ok bound => (Ok bound, add_listener (svc, bound) w)
    | Err msg => (Err (wrap msg), w)
    end.

Definition go_Serve (E : Collaborators) (svc : Service)
    (opts : list ServeOption) : M ErrorSignal :=
  fun w =>
    (Ok (make_chan (launcher_goroutine (corehttp_Serve E svc))),
     add_serving (svc, opts) w).

Definition call_ConstructNode (wrap : string -> string) : M IpfsNode :=
  fun w => try wrap (ConstructNode w) w.

(** [%q] of a string without characters that need escaping. *)
Definition quoted (s : string) : string :=
  String (Ascii.ascii_of_nat 34)
    (s +:+ String (Ascii.ascii_of_nat 34) EmptyString).

(** [mountHTTPapi]; [Err msg] is the pair [(error, nil)]. *)
Definition mountHTTPapi (E : Collaborators) (req : Request) : M ErrorSignal :=
  cfg ← try (fun e => "mountHTTPapi: GetConfig() failed: " +:+ e)
            (GetConfig req);
  apiMaddr ← try (fun e => "mountHTTPapi: invalid API address: " +:+
                           quoted (Addresses_API cfg) +:+
                           " (err: " +:+ e +:+ ")")
                 (NewMultiaddr E (Addresses_API cfg));
  apiMaddr' ← manet_listen E API
                (fun e => "mountHTTPapi: manet.Listen(" +:+ apiMaddr +:+
                          ") failed: " +:+ e) apiMaddr;
  Printf ("API server listening on " +:+ apiMaddr') ;;
  let '(unrestricted, _, err) := Option_Bool req unrestrictedApiAccess in
  check (fun e => "mountHTTPapi: Option(" +:+ unrestrictedApiAccess +:+
                  ") failed: " +:+ e) err ;;
  let apiGw := {| Writable := true;
                  BlockList_Decider := Decider unrestricted (WebUIPaths E) |} in
  let opts := [CommandsOption; WebUIOption; GatewayServeOption apiGw;
               VersionOption; defaultMux "/debug/vars";
               defaultMux "/debug/pprof/"] in
  let opts := if (0 <? String.length (Gateway_RootRedirect cfg))%nat
              then opts ++ [RedirectOption "" (Gateway_RootRedirect cfg)]
              else opts in
  node ← call_ConstructNode
           (fun e => "mountHTTPgw: ConstructNode() failed: " +:+ e);
  go_Serve E API opts.

(** [mountHTTPgw]. *)
Definition mountHTTPgw (E : Collaborators) (req : Request) : M ErrorSignal :=
  cfg ← try (fun e => "mountHTTPgw: GetConfig() failed: " +:+ e)
            (GetConfig req);
  gatewayMaddr ← try (fun e => "mountHTTPgw: invalid gateway address: " +:+
                               quoted (Addresses_Gateway cfg) +:+
                               " (err: " +:+ e +:+ ")")
                     (NewMultiaddr E (Addresses_Gateway cfg));
  let '(writable, writableOptionFound, err) := Option_Bool req writableKwd in
  check (fun e => "mountHTTPgw: req.Option(" +:+ writableKwd +:+
                  ") failed: " +:+ e) err ;;
  let writable := if negb writableOptionFound then Gateway_Writable cfg
                  else writable in
  gatewayMaddr' ← manet_listen E Gateway
                    (fun e => "mountHTTPgw: manet.Listen(" +:+ gatewayMaddr +:+
                              ") failed: " +:+ e) gatewayMaddr;
  (if writable
   then Printf ("Gateway (writable) server listening on " +:+ gatewayMaddr')
   else Printf ("Gateway (readonly) server listening on " +:+ gatewayMaddr')) ;;
  let opts := [VersionOption; IPNSHostnameOption; GatewayOption writable] in
  let opts := if (0 <? String.length (Gateway_RootRedirect cfg))%nat
              then opts ++ [RedirectOption "" (Gateway_RootRedirect cfg)]
              else opts in
  node ← call_ConstructNode
           (fun e => "mountHTTPgw: ConstructNode() failed: " +:+ e);
  go_Serve E Gateway opts.

(** [mountFuse]. *)
Definition mountFuse (E : Collaborators) (req : Request) : M unit :=
  cfg ← try (fun e => "mountFuse: GetConfig() failed: " +:+ e)
            (GetConfig req);
  let '(fsdir, found, err) := Option_String req ipfsMountKwd in
  check (fun e => "mountFuse: req.Option(" +:+ ipfsMountKwd +:+
                  ") failed: " +:+ e) err ;;
  let fsdir := if negb found then Mounts_IPFS cfg else fsdir in
  let '(nsdir, found, err) := Option_String req ipnsMountKwd in
  check (fun e => "mountFuse: req.Option(" +:+ ipnsMountKwd +:+
                  ") failed: " +:+ e) err ;;
  let nsdir := if negb found then Mounts_IPNS cfg else nsdir in
  node ← call_ConstructNode
           (fun e => "mountFuse: ConstructNode() failed: " +:+ e);
  check (fun e => e) (commands_Mount E fsdir nsdir) ;;
  ((fun w => (Ok tt, add_mounted (fsdir, nsdir) w)) : M unit) ;;
  Printf ("IPFS mounted at: " +:+ fsdir) ;;
  Printf ("IPNS mounted at: " +:+ nsdir).

(** ** The collaborators of the bootstrap *)

(** Modelled from the spec: [util.FileExists(path)], which the daemon uses
    on the repository root to detect whether a repository exists at the
    target path. *)
Definition FileExists (path : string) : M bool :=
  fun w => (Ok (bool_decide (is_Some (repos w !! path))), w).

Definition call_initWithDefaults (E : Collaborators) (root : string) : M unit :=
  fun w =>
    let (err, rs) := initWithDefaults E root (repos w) in
    check (fun e => e) err (set_repos (fun _ => rs) w).

(** Modelled from the spec: [fsrepo.Open], the Resource Lock Guard's
    [acquire].  It fails when the lock is held, when there is no repository
    at the path and when the repository is corrupt; otherwise it takes the
    exclusive lock of the path. *)
Definition fsrepo_Open (root : string) : M FSRepo :=
  fun w =>
    if bool_decide (root ∈ locks w) then (Err "repo lock held", w)
    else
      match repos w !! root with
      | None => (Err "repo uninitialized", w)
      | Some r =>
          if repo_corrupt r then (Err "repo corrupt", w)
          else (Ok {| fsrepo_path := root; fsrepo_Config := repo_config r |},
                set_locks (fun ls => {[root]} ∪ ls) w)
      end.

(** Modelled from the spec: [repo.Close()], the explicit release of the
    lock. *)
Definition repo_Close (repo : FSRepo) (w : World) : World :=
  set_locks (fun ls => ls ∖ {[fsrepo_path repo]}) w.

(** Modelled from the spec: [ServerIPFSAddrs], which parses every configured
    server address and fails as a whole on the first malformed one. *)
Fixpoint ServerIPFSAddrs (E : Collaborators) (servers : list string)
    : result (list IPFSAddr) :=
  match servers with
  | [] => Ok []
  | s :: rest =>
      match ParseIPFSAddr E s with
      | Err msg => Err msg
      | Ok addr =>
          match ServerIPFSAddrs E rest with
          | Err msg => Err msg
          | Ok addrs => Ok (addr :: addrs)
          end
      end
  end.

(** Modelled from the spec: the node builder of package [core], which
    records the online mode, the repository and the routing override, and
    has no override ([Default]) until [SetRouting] is called. *)
Definition NewNodeBuilder : NodeBuilder :=
  {| nb_online := false; nb_repo := None; nb_routing := Default |}.

Definition Online (nb : NodeBuilder) : NodeBuilder :=
  {| nb_online := true; nb_repo := nb_repo nb; nb_routing := nb_routing nb |}.

Definition SetRepo (repo : FSRepo) (nb : NodeBuilder) : NodeBuilder :=
  {| nb_online := nb_online nb; nb_repo := Some repo;
     nb_routing := nb_routing nb |}.

Definition SetRouting (ro : RoutingOption) (nb : NodeBuilder) : NodeBuilder :=
  {| nb_online := nb_online nb; nb_repo := nb_repo nb; nb_routing := ro |}.

(** Modelled from the spec: [corerouting.SupernodeClient(infos...)], the
    fixed peer set of the given peers, in order. *)
Definition SupernodeClient (infos : list PeerInfo) : RoutingOption :=
  FixedPeerSet infos.

(** Modelled from the spec: [nb.Build], the Node Builder.  On failure the
    ownership of the repository handle has not moved and nothing is
    released; on success the node owns what the builder was given. *)
Definition Build (E : Collaborators) (nb : NodeBuilder) : M IpfsNode :=
  fun w =>
    match nb_Build E nb with
    | Some msg => (Err msg, w)
    | None => (Ok {| node_online := nb_online nb; node_repo := nb_repo nb;
                     node_routing := nb_routing nb |}, w)
    end.

(** Modelled from the spec: [node.Close()], the teardown that releases the
    repository handle the node owns. *)
Definition node_Close (node : IpfsNode) (w : World) : World :=
  add_closed_node node
    match node_repo node with
    | Some repo => repo_Close repo w
    | None => w
    end.

(** ** [daemonFunc] *)

(** [res.SetError(err, cmds.ErrNormal); return] on the error of [m]. *)
Definition orSetError {A} (m : M A) : M A :=
  fun w =>
    match m w with
    | (Ok a, w') => (Ok a, w')
    | (Err msg, w') => (Err msg, set_res_error (Some msg) w')
    end.

(** Lines 120-133: initialise the repository if asked to and absent. *)
Definition initialize_if_absent (E : Collaborators) (req : Request)
    (initialize : bool) : M unit :=
  if initialize then
    exists_ ← FileExists (ConfigRoot req);
    if negb exists_
    then orSetError (call_initWithDefaults E (ConfigRoot req))
    else mret tt
  else mret tt.

(** Lines 153-173: the routing option of the node builder. *)
Definition select_routing (E : Collaborators) (req : Request) (repo : FSRepo)
    (nb : NodeBuilder) : M NodeBuilder :=
  let '(routingOption, _, err) := Option_String req routingOptionKwd in
  orSetError (check (fun e => e) err) ;;
  if String.eqb routingOption routingOptionSupernodeKwd then
    servers ← on_error (repo_Close repo)
                (orSetError
                   (try (fun e => e)
                      (ServerIPFSAddrs E
                         (SupernodeRouting_Servers (fsrepo_Config repo)))));
    let infos :=
      fold_left
        (fun infos addr =>
           infos ++ [{| ID := addr_ID addr;
                        Addrs := [addr_Transport addr] |}])
        servers [] in
    mret (SetRouting (SupernodeClient infos) nb)
  else mret nb.

(** Lines 194-227, under the deferred [node.Close()]: the services. *)
Definition launch_services (E : Collaborators) (req : Request) (cfg : Config)
    (node : IpfsNode) : M (list ErrorSignal) :=
  ((fun w => (Ok tt, set_ConstructNode (Ok node) w)) : M unit) ;;
  apiErrc ← orSetError (mountHTTPapi E req);
  gwErrc ← (if (0 <? String.length (Addresses_Gateway cfg))%nat
            then orSetError (mountHTTPgw E req)
            else mret nil_chan);
  let '(mount, _, err) := Option_Bool req mountKwd in
  orSetError (check (fun e => e) err) ;;
  (if mount then orSetError (mountFuse E req) else mret tt) ;;
  mret [apiErrc; gwErrc].

(** [daemonFunc] up to the call of [merge]: [Ok (node, cs)] is "the daemon
    is about to range over [merge(cs...)]", [Err msg] is "the daemon has
    returned".  The deferred [node.Close()] has run on the early returns
    that come after the [defer] statement. *)
Definition daemonFunc_bootstrap (E : Collaborators) (req : Request)
    : M (IpfsNode * list ErrorSignal) :=
  Printf "Initializing daemon..." ;;
  let '(initialize, _, err) := Option_Bool req initOptionKwd in
  orSetError (check (fun e => e) err) ;;
  initialize_if_absent E req initialize ;;
  repo ← orSetError (fsrepo_Open (ConfigRoot req));
  cfg ← orSetError (try (fun e => e) (GetConfig req));
  let nb := SetRepo repo (Online NewNodeBuilder) in
  nb ← select_routing E req repo nb;
  node ← orSetError (Build E nb);
  cs ← on_error (node_Close node) (launch_services E req cfg node);
  mret (node, cs).

(** ** [merge] and the supervising loop

    The goroutines [merge] starts, and the loop
    [for err := range merge(apiErrc, gwErrc)] of [daemonFunc] that receives
    from [out], as a transition system: a step is one goroutine passing one
    of its blocking operations. *)

(** Where an [output] goroutine stands. *)
Inductive output_state :=
| Receiving           (* in [for n := range c], waiting on [c] *)
| Sending (n : error) (* in [out <- n] *)
| Finished.           (* [wg.Done()] called *)

Record output_goroutine := {
  src_pending : list error; (* what the producer of [c] still has to send *)
  src_closes : bool;        (* whether it closes [c] after that *)
  at_ : output_state
}.

Inductive loop_state :=
| Ranging
| ReturnedError (msg : string) (* [res.SetError(err, ...); return] *)
| ReturnedClean.               (* [out] was closed: the loop ended *)

Record MergeState := {
  outputs : list output_goroutine;
  wg : Z;                   (* the counter of the [sync.WaitGroup] *)
  out_closed : bool;        (* the closing goroutine has closed [out] *)
  loop : loop_state;
  received : list error     (* what the loop has received from [out] *)
}.

(** [for _, c := range cs { if c != nil { go output(c) } }] *)
Fixpoint start_outputs (cs : list ErrorSignal) : list output_goroutine :=
  match cs with
  | [] => []
  | nil_chan :: rest => start_outputs rest
  | chan pending closes :: rest =>
      {| src_pending := pending; src_closes := closes; at_ := Receiving |}
      :: start_outputs rest
  end.

(** The state [merge(cs...)] leaves behind when it returns [out], with the
    caller about to range over [out]. *)
Definition merge (cs : list ErrorSignal) : MergeState :=
  {| outputs := start_outputs cs;
     wg := Z.of_nat (length cs);        (* wg.Add(len(cs)) *)
     out_closed := false;
     loop := Ranging;
     received := [] |}.

Inductive goroutine :=
| Output (i : nat) (* the i-th [output] goroutine started *)
| Closer           (* [wg.Wait(); close(out)] *)
| Supervisor.      (* the [range] loop of [daemonFunc] *)

Definition set_output (i : nat) (o : output_goroutine) (s : MergeState) :=
  {| outputs := <[i := o]> (outputs s); wg := wg s;
     out_closed := out_closed s; loop := loop s; received := received s |}.

Definition wg_Done (s : MergeState) :=
  {| outputs := outputs s; wg := (wg s - 1)%Z;
     out_closed := out_closed s; loop := loop s; received := received s |}.

Definition close_out (s : MergeState) :=
  {| outputs := outputs s; wg := wg s;
     out_closed := true; loop := loop s; received := received s |}.

Definition set_loop (l : loop_state) (s : MergeState) :=
  {| outputs := outputs s; wg := wg s;
     out_closed := out_closed s; loop := l; received := received s |}.

(** One pass of the body of the [range] loop on the value [err]. *)
Definition loop_receive (err : error) (s : MergeState) :=
  {| outputs := outputs s; wg := wg s; out_closed := out_closed s;
     loop := match err with
             | Some msg => ReturnedError msg
             | None => Ranging
             end;
     received := received s ++ [err] |}.

(** [step g s] is the state after goroutine [g] moves, [None] when [g] is
    blocked or has ended. *)
Definition step (g : goroutine) (s : MergeState) : option MergeState :=
  match g with
  | Output i =>
      match outputs s !! i with
      | None => None
      | Some o =>
          match at_ o with
          | Receiving =>
              match src_pending o with
              | n :: rest =>
                  Some (set_output i {| src_pending := rest;
                                        src_closes := src_closes o;
                                        at_ := Sending n |} s)
              | [] =>
                  if src_closes o
                  then Some (wg_Done
                               (set_output i {| src_pending := [];
                                                src_closes := true;
                                                at_ := Finished |} s))
                  else None
              end
          | Sending n =>
              match loop s with
              | Ranging =>
                  if out_closed s then None
                  else Some (loop_receive n
                               (set_output i {| src_pending := src_pending o;
                                                src_closes := src_closes o;
                                                at_ := Receiving |} s))
              | _ => None
              end
          | Finished => None
          end
      end
  | Closer =>
      if out_closed s then None
      else if (wg s =? 0)%Z then Some (close_out s) else None
  | Supervisor =>
      match loop s with
      | Ranging => if out_closed s then Some (set_loop ReturnedClean s) else None
      | _ => None
      end
  end.

(** A schedule is the order in which goroutines move. *)
Fixpoint run (sched : list goroutine) (s : MergeState) : option MergeState :=
  match sched with
  | [] => Some s
  | g :: rest =>
      match step g s with
      | Some s' => run rest s'
      | None => None
      end
  end.

(** No goroutine can move. *)
Definition stuck (s : MergeState) : Prop := ∀ g, step g s = None.

(** What [daemonFunc] does once the loop is over: report the error, if any,
    and run the deferred [node.Close()].  [None]: still in the loop. *)
Definition daemonFunc_supervised (node : IpfsNode) (l : loop_state)
    (w : World) : option World :=
  match l with
  | Ranging => None
  | ReturnedError msg => Some (node_Close node (set_res_error (Some msg) w))
  | ReturnedClean => Some (node_Close node w)
  end.

(** Sums over the [output] goroutines. *)
Definition sum_outputs (f : output_goroutine -> nat)
    (os : list output_goroutine) : nat :=
  foldr (fun o acc => f o + acc) 0 os.

Definition unfinished (o : output_goroutine) : nat :=
  match at_ o with Finished => 0 | _ => 1 end.

(** Values that have left their producer's hands or will, and have not yet
    reached the loop. *)
Definition undelivered (o : output_goroutine) : nat :=
  length (src_pending o) + match at_ o with Sending _ => 1 | _ => 0 end.

(** A bound on the steps the goroutines can still make. *)
Definition fuel_of_output (o : output_goroutine) : nat :=
  2 * length (src_pending o) +
  match at_ o with Finished => 0 | Receiving => 1 | Sending _ => 2 end.

Definition fuel (s : MergeState) : nat :=
  sum_outputs fuel_of_output (outputs s) +
  (if out_closed s then 0 else 1) +
  match loop s with Ranging => 1 | _ => 0 end.

(** ** Requests that differ in gateway writability only *)

Definition set_Gateway_Writable (b : bool) (cfg : Config) : Config :=
  {| Addresses_API := Addresses_API cfg;
     Addresses_Gateway := Addresses_Gateway cfg;
     Gateway_Writable := b;
     Gateway_RootRedirect := Gateway_RootRedirect cfg;
     Mounts_IPFS := Mounts_IPFS cfg;
     Mounts_IPNS := Mounts_IPNS cfg;
     SupernodeRouting_Servers := SupernodeRouting_Servers cfg |}.

(** [req] with the [--writable] flag read as [flag] and the persisted
    [Gateway.Writable] as [persisted]. *)
Definition with_writable (flag : bool * bool * error) (persisted : bool)
    (req : Request) : Request :=
  {| Option_Bool := fun k => if String.eqb k writableKwd then flag
                             else Option_Bool req k;
     Option_String := Option_String req;
     ConfigRoot := ConfigRoot req;
     GetConfig := match GetConfig req with
                  | Ok cfg => Ok (set_Gateway_Writable persisted cfg)
                  | Err msg => Err msg
                  end |}.

(** ** A concrete setting, for running the definitions *)

Definition example_config (gateway : string) (servers : list string) : Config :=
  {| Addresses_API := "/ip4/127.0.0.1/tcp/5001";
     Addresses_Gateway := gateway;
     Gateway_Writable := false;
     Gateway_RootRedirect := "";
     Mounts_IPFS := "/ipfs";
     Mounts_IPNS := "/ipns";
     SupernodeRouting_Servers := servers |}.

Definition example_repo (gateway : string) (servers : list string) : Repo :=
  {| repo_corrupt := false; repo_config := example_config gateway servers |}.

(** No flag given, except [--routing] when [routing] is not empty. *)
Definition example_req (routing gateway : string) (servers : list string)
    : Request :=
  {| Option_Bool := fun _ => (false, false, None);
     Option_String := fun k =>
       if String.eqb k routingOptionKwd
       then (routing, negb (String.eqb routing ""), None)
       else ("", false, None);
     ConfigRoot := "/repo";
     GetConfig := Ok (example_config gateway servers) |}.

(** Collaborators that work, except that the node builder reports [build]
    and the only address [ParseIPFSAddr] accepts is that of peer [P]. *)
Definition example_E (build : error) : Collaborators :=
  {| WebUIPaths := ["/ipfs/QmWebUI"; "/webui"];
     initWithDefaults := fun root rs =>
       (None, <[root := example_repo "" []]> rs);
     ParseIPFSAddr := fun s =>
       if String.eqb s "/ip4/127.0.0.1/tcp/4001/ipfs/P"
       then Ok {| addr_ID := "P";
                  addr_Transport := "/ip4/127.0.0.1/tcp/4001" |}
       else Err "invalid ipfs address";
     nb_Build := fun _ => build;
     NewMultiaddr := fun s => Ok s;
     manet_Listen := fun s => Ok s;
     corehttp_Serve := fun _ => Some None;
     commands_Mount := fun _ _ => None |}.

(** A machine with one initialised repository at [/repo], nothing locked,
    nothing running. *)
Definition example_world (gateway : string) (servers : list string) : World :=
  {| repos := {[ "/repo" := example_repo gateway servers ]};
     locks := ∅;
     listeners := [];
     serving := [];
     mounted := [];
     closed_nodes := [];
     ConstructNode := Err "no node";
     stdout := [];
     res_error := None |}.

Definition example_node : IpfsNode :=
  {| node_online := true; node_repo := None; node_routing := Default |}.

(** ** What the spec says of a launcher's error signal *)

(** "Emits at most one error value and then closes". *)
Definition one_shot_then_closed (c : ErrorSignal) : Prop :=
  ∃ vs, c = chan vs true ∧ length vs ≤ 1.

(** At most one error value, and no close. *)
Definition one_shot_never_closed (c : ErrorSignal) : Prop :=
  ∃ vs, c = chan vs false ∧ length vs ≤ 1.

(** The [peer.PeerInfo] the daemon makes of a server address. *)
Definition PeerInfo_of (addr : IPFSAddr) : PeerInfo :=
  {| ID := addr_ID addr; Addrs := [addr_Transport addr] |}.

(** ** Frames

    [no_new_gateway w w']: every gateway listener and every gateway service
    of [w'] was already there in [w]. *)
Definition no_new_gateway (w w' : World) : Prop :=
  (∀ a, (Gateway, a) ∈ listeners w' → (Gateway, a) ∈ listeners w) ∧
  (∀ opts, (Gateway, opts) ∈ serving w' → (Gateway, opts) ∈ serving w).

(** [m] changes the world within [R] only, however it returns. *)
Definition preserves (R : World -> World -> Prop) {A} (m : M A) : Prop :=
  ∀ w r w', m w = (r, w') → R w w'.

(** ** Invariants of the goroutines *)

(** A signal that never sends: it is nil, or it is closed without a
    value. *)
Definition silent (c : ErrorSignal) : Prop :=
  c = nil_chan ∨ c = chan [] true.

(** A signal on which [range] never ends: it is nil, or nobody closes
    it. *)
Definition never_closed (c : ErrorSignal) : Prop :=
  c = nil_chan ∨ ∃ vs, c = chan vs false.

(** An [output] goroutine whose channel is never closed. *)
Definition unclosed (o : output_goroutine) : nat :=
  if src_closes o then 0 else 1.

Fixpoint count_nil (cs : list ErrorSignal) : nat :=
  match cs with
  | [] => 0
  | nil_chan :: rest => S (count_nil rest)
  | chan _ _ :: rest => count_nil rest
  end.

(** Every value on its way is the error [msg]. *)
Definition carries_only (msg : string) (o : output_goroutine) : Prop :=
  Forall (fun e => e = Some msg) (src_pending o) ∧
  (∀ n, at_ o = Sending n → n = Some msg) ∧
  (at_ o = Finished → src_pending o = []).

(** The states of a run in which [msg] is the one value ever sent. *)
Record one_error_inv (msg : string) (s : MergeState) : Prop := {
  inv_outputs : Forall (carries_only msg) (outputs s);
  inv_wg : (Z.of_nat (sum_outputs unfinished (outputs s)) ≤ wg s)%Z;
  inv_closed : out_closed s = true → sum_outputs unfinished (outputs s) = 0;
  inv_one : sum_outputs undelivered (outputs s) + length (received s) = 1;
  inv_loop : match loop s with
             | Ranging => received s = []
             | ReturnedError m => m = msg ∧ received s = [Some msg]
             | ReturnedClean => False
             end
}.

(** The states of a run in which [n] signals were nil and [b] channels are
    never closed. *)
Record wait_inv (n b : nat) (s : MergeState) : Prop := {
  wait_finished :
    Forall (fun o => at_ o = Finished → src_closes o = true) (outputs s);
  wait_wg :
    wg s = (Z.of_nat n + Z.of_nat (sum_outputs unfinished (outputs s)))%Z;
  wait_unclosed : sum_outputs unclosed (outputs s) = b;
  wait_open : out_closed s = false;
  wait_loop : loop s ≠ ReturnedClean
}.

(** How the loop stands to what it has received. *)
Definition loop_inv (s : MergeState) : Prop :=
  match loop s with
  | Ranging => Forall (fun e => e = None) (received s)
  | ReturnedError msg =>
      ∃ nils, received s = nils ++ [Some msg] ∧
              Forall (fun e => e = None) nils
  | ReturnedClean =>
      Forall (fun e => e = None) (received s) ∧ out_closed s = true
  end.

Definition example_fsrepo (servers : list string) : FSRepo :=
  {| fsrepo_path := "/repo"; fsrepo_Config := example_config "" servers |}.

(** ** More invariants of the goroutines *)

(** What an [output] goroutine still has to hand over, in order: the value
    it is sending, then what its producer still has to send. *)
Definition in_flight (o : output_goroutine) : list error :=
  match at_ o with Sending n => [n] | _ => [] end ++ src_pending o.

Definition all_in_flight (os : list output_goroutine) : list error :=
  foldr (fun o acc => in_flight o ++ acc) [] os.

(** Every value the producers of [cs] will send. *)
Fixpoint signal_values (cs : list ErrorSignal) : list error :=
  match cs with
  | [] => []
  | nil_chan :: rest => signal_values rest
  | chan pending _ :: rest => pending ++ signal_values rest
  end.

(** The states of the runs of [merge(cs...)]. *)
Record merge_inv (cs : list ErrorSignal) (s : MergeState) : Prop := {
  minv_wg :
    wg s = (Z.of_nat (count_nil cs)
            + Z.of_nat (sum_outputs unfinished (outputs s)))%Z;
  minv_closed :
    out_closed s = true →
    count_nil cs = 0 ∧ sum_outputs unfinished (outputs s) = 0;
  minv_finished :
    Forall (fun o => at_ o = Finished →
                     src_pending o = [] ∧ src_closes o = true) (outputs s);
  minv_values :
    received s ++ all_in_flight (outputs s) ≡ₚ signal_values cs;
  minv_length : length (outputs s) + count_nil cs = length cs
}.

(** A channel that its producer closes. *)
Definition closing (c : ErrorSignal) : Prop := ∃ vs, c = chan vs true.

(** ** More frames *)

(** Nothing was bound, started or mounted between [w] and [w']. *)
Definition same_services (w w' : World) : Prop :=
  listeners w' = listeners w ∧ serving w' = serving w ∧
  mounted w' = mounted w.

(** No lock was taken or released, no node closed and the node of the
    context not replaced between [w] and [w']. *)
Definition same_ownership (w w' : World) : Prop :=
  locks w' = locks w ∧ closed_nodes w' = closed_nodes w ∧
  ConstructNode w' = ConstructNode w.

(** [m] returns an error only with that error set on the response. *)
Definition reports {A} (m : M A) : Prop :=
  ∀ w msg w', m w = (Err msg, w') → res_error w' = Some msg.

(** [m] sets no error on the response unless it returns one. *)
Definition silent_on_success {A} (m : M A) : Prop :=
  ∀ w a w', m w = (Ok a, w') → res_error w' = res_error w.

(** The node [nb.Build] makes of a builder. *)
Definition node_of (nb : NodeBuilder) : IpfsNode :=
  {| node_online := nb_online nb; node_repo := nb_repo nb;
     node_routing := nb_routing nb |}.

(** A request with a configured gateway whose [--writable] flag cannot be
    read as a boolean. *)
Definition example_req_bad_writable : Request :=
  with_writable (false, false, Some "not a bool") false
    (example_req "" "/ip4/0.0.0.0/tcp/8080" []).

(** No repository was created or altered between [w] and [w']. *)
Definition same_repos (w w' : World) : Prop := repos w' = repos w.

(** * The release helpers (internal/mage/util/util.go)

    The helpers talk to GitHub through the [go-github] client and read the
    environment.  The service is a record of functions, one per endpoint
    the helpers call, from the arguments of the call to its response; the
    state holds the environment, the calls made so far and the lines
    printed.  The loops over pages have no bound in the source: they run
    here on fuel, and [None] is "still looping". *)

Record Issue := {
  issue_Number : Z;
  issue_Title : string
}.

Record IssueComment := {
  comment_ID : Z;
  comment_Body : string
}.

Record CheckRun := {
  checkrun_ID : Z;
  checkrun_Name : string
}.

Record Branch := {
  branch_Name : string;
  branch_SHA : string
}.

(** [object.Signature], without its time stamp. *)
Record Signature := {
  sig_Name : string;
  sig_Email : string
}.

(** The calls of the GitHub API the helpers make. *)
Inductive ApiCall :=
| Search_Issues (q : string) (Page PerPage : nat)
| Issues_Create (owner repo title body : string)
| Issues_ListComments (owner repo : string) (number : Z) (Page PerPage : nat)
| Issues_CreateComment (owner repo : string) (number : Z) (body : string)
| Checks_ListCheckRunsForRef (owner repo ref : string) (Page PerPage : nat)
| Repositories_GetBranch (owner repo name : string)
| Git_GetRef (owner repo ref : string)
| Git_CreateRef (owner repo ref object : string).

(** The responses of the service; a page comes with its [NextPage], which
    is [0] on the last page. *)
Record GitHub := {
  search_issues : string -> nat -> nat -> result (list Issue * nat);
  issues_create : string -> string -> string -> string -> result Issue;
  list_comments :
    string -> string -> Z -> nat -> nat -> result (list IssueComment * nat);
  create_comment : string -> string -> Z -> string -> result IssueComment;
  list_check_runs :
    string -> string -> string -> nat -> nat -> result (list CheckRun * nat);
  get_branch : string -> string -> string -> result Branch;
  get_ref : string -> string -> string -> result string;
  create_ref : string -> string -> string -> string -> result unit
}.

Record Sys := {
  env : gmap string string;   (* the environment variables that are set *)
  api_calls : list ApiCall;   (* the calls made, oldest first *)
  printed : list string       (* the lines printed, oldest first *)
}.

(** State, early return with an error, and fuel. *)
Definition G (A : Type) := Sys -> option (result A * Sys).

#[global] Instance G_ret : MRet G := fun A a s => Some (Ok a, s).
#[global] Instance G_bind : MBind G := fun A B k m s =>
  match m s with
  | Some (Ok a, s') => k a s'
  | Some (Err msg, s') => Some (Err msg, s')
  | None => None
  end.

(** [return nil, err] *)
Definition fail {A} (msg : string) : G A := fun s => Some (Err msg, s).

(** [v, err := f(); if err != nil { return nil, err }] *)
Definition orReturn {A} (r : result A) : G A :=
  fun s => Some (match r with Ok a => Ok a | Err msg => Err msg end, s).

(** [os.Getenv]: the empty string for a variable that is not set. *)
Definition Getenv (key : string) : G string :=
  fun s => Some (Ok (default "" (env s !! key)), s).

(** [fmt.Printf(line); fmt.Println()] *)
Definition Println (line : string) : G unit :=
  fun s => Some (Ok tt, {| env := env s; api_calls := api_calls s;
                           printed := printed s ++ [line] |}).

(** A call through the client: it is recorded, then answered. *)
Definition call {A} (c : ApiCall) (response : result A) : G A :=
  fun s => Some (match response with Ok a => Ok a | Err msg => Err msg end,
                 {| env := env s; api_calls := api_calls s ++ [c];
                    printed := printed s |}).

(** [p != nil] *)
Definition not_nil {A} (p : option A) : bool :=
  match p with Some _ => true | None => false end.

(** [strings.Contains(s, substr)]. *)
Fixpoint Contains (s substr : string) : bool :=
  HasPrefix s substr ||
  match s with
  | EmptyString => false
  | String _ s' => Contains s' substr
  end.

(** [getSignature], given the environment. *)
Definition getSignature : G Signature :=
  name ← Getenv "GITHUB_USER_NAME";
  email ← Getenv "GITHUB_USER_EMAIL";
  let name := if String.eqb name "" then "Kubo Mage" else name in
  let email := if String.eqb email "" then "noreply+kubo-mage@ipfs.tech"
               else email in
  mret {| sig_Name := name; sig_Email := email |}.

(** [GitHubClient]: the client is its token. *)
Definition GitHubClient : G string :=
  token ← Getenv "GITHUB_TOKEN";
  if String.eqb token "" then fail "env var GITHUB_TOKEN must be set"
  else mret token.

(** The loop of [GetIssue], from the page [Page] on. *)
Fixpoint GetIssue_loop (fuel : nat) (gh : GitHub) (q title : string)
    (Page : nat) : G (option Issue) :=
  match fuel with
  | 0 => fun _ => None
  | S fuel' =>
      '(Issues, NextPage) ← call (Search_Issues q Page 100)
                              (search_issues gh q Page 100);
      let issue := find (fun i => String.eqb (issue_Title i) title) Issues in
      if not_nil issue || (NextPage =? 0)%nat then mret issue
      else GetIssue_loop fuel' gh q title NextPage
  end.

(** [GetIssue]. *)
Definition GetIssue (fuel : nat) (gh : GitHub) (owner repo title : string)
    : G (option Issue) :=
  Println ("Getting issue [owner: " +:+ owner +:+ ", repo: " +:+ repo +:+
           ", title: " +:+ title +:+ "]") ;;
  c ← GitHubClient;
  let q := "is:issue repo:" +:+ owner +:+ "/" +:+ repo +:+ " in:title " +:+
           title in
  GetIssue_loop fuel gh q title 0.

(** [CreateIssue]. *)
Definition CreateIssue (gh : GitHub) (owner repo title body : string)
    : G Issue :=
  Println ("Creating issue [owner: " +:+ owner +:+ ", repo: " +:+ repo +:+
           ", title: " +:+ title +:+ "]") ;;
  c ← GitHubClient;
  call (Issues_Create owner repo title body)
    (issues_create gh owner repo title body).

(** The loop of [GetIssueComment], from the page [Page] on. *)
Fixpoint GetIssueComment_loop (fuel : nat) (gh : GitHub) (owner repo : string)
    (number : Z) (body : string) (Page : nat) : G (option IssueComment) :=
  match fuel with
  | 0 => fun _ => None
  | S fuel' =>
      '(cs, NextPage) ← call (Issues_ListComments owner repo number Page 100)
                          (list_comments gh owner repo number Page 100);
      let comment := find (fun c => String.eqb (comment_Body c) body) cs in
      if not_nil comment || (NextPage =? 0)%nat then mret comment
      else GetIssueComment_loop fuel' gh owner repo number body NextPage
  end.

(** [GetIssueComment]. *)
Definition GetIssueComment (fuel : nat) (gh : GitHub)
    (owner repo title body : string) : G (option IssueComment) :=
  Println ("Getting issue comment [owner: " +:+ owner +:+ ", repo: " +:+
           repo +:+ ", title: " +:+ title +:+ ", body: " +:+ body +:+ "]") ;;
  c ← GitHubClient;
  issue ← GetIssue fuel gh owner repo title;
  match issue with
  | None => mret None
  | Some issue =>
      GetIssueComment_loop fuel gh owner repo (issue_Number issue) body 0
  end.

(** [CreateIssueComment]. *)
Definition CreateIssueComment (fuel : nat) (gh : GitHub)
    (owner repo title body : string) : G IssueComment :=
  Println ("Creating issue comment [owner: " +:+ owner +:+ ", repo: " +:+
           repo +:+ ", title: " +:+ title +:+ ", body: " +:+ body +:+ "]") ;;
  c ← GitHubClient;
  issue ← GetIssue fuel gh owner repo title;
  match issue with
  | None => fail "issue not found"
  | Some issue =>
      call (Issues_CreateComment owner repo (issue_Number issue) body)
        (create_comment gh owner repo (issue_Number issue) body)
  end.

(** [v, _, err := call(); if err != nil &&
    strings.Contains(err.Error(), "404 Not Found") { return nil, nil };
    return v, err] *)
Definition call_unless_404 {A} (c : ApiCall) (response : result A)
    : G (option A) :=
  fun s =>
    Some (match response with
          | Ok v => Ok (Some v)
          | Err err =>
              if Contains err "404 Not Found" then Ok None else Err err
          end,
          {| env := env s; api_calls := api_calls s ++ [c];
             printed := printed s |}).

(** [GetBranch]. *)
Definition GetBranch (gh : GitHub) (owner repo name : string)
    : G (option Branch) :=
  Println ("Getting branch [owner: " +:+ owner +:+ ", repo: " +:+ repo +:+
           ", name: " +:+ name +:+ "]") ;;
  c ← GitHubClient;
  call_unless_404 (Repositories_GetBranch owner repo name)
    (get_branch gh owner repo name).

(** [CreateBranch]. *)
Definition CreateBranch (gh : GitHub) (owner repo name source : string)
    : G (option Branch) :=
  Println ("Creating branch [owner: " +:+ owner +:+ ", repo: " +:+ repo +:+
           ", name: " +:+ name +:+ ", source: " +:+ source +:+ "]") ;;
  c ← GitHubClient;
  r ← call (Git_GetRef owner repo ("refs/heads/" +:+ source))
        (get_ref gh owner repo ("refs/heads/" +:+ source));
  call (Git_CreateRef owner repo ("refs/heads/" +:+ name) r)
    (create_ref gh owner repo ("refs/heads/" +:+ name) r) ;;
  GetBranch gh owner repo name.

(** The loop of [GetCheckRuns], from the page [Page] on, with the runs
    gathered so far. *)
Fixpoint GetCheckRuns_loop (fuel : nat) (gh : GitHub) (owner repo ref : string)
    (runs : list CheckRun) (Page : nat) : G (list CheckRun) :=
  match fuel with
  | 0 => fun _ => None
  | S fuel' =>
      '(rs, NextPage) ← call (Checks_ListCheckRunsForRef owner repo ref Page 100)
                          (list_check_runs gh owner repo ref Page 100);
      let runs := runs ++ rs in
      if (NextPage =? 0)%nat then mret runs
      else GetCheckRuns_loop fuel' gh owner repo ref runs NextPage
  end.

(** [GetCheckRuns]. *)
Definition GetCheckRuns (fuel : nat) (gh : GitHub) (owner repo ref : string)
    : G (list CheckRun) :=
  Println ("Getting checks [owner: " +:+ owner +:+ ", repo: " +:+ repo +:+
           ", ref: " +:+ ref +:+ "]") ;;
  c ← GitHubClient;
  GetCheckRuns_loop fuel gh owner repo ref [] 0.

(** [GitPushBranch] and [GitPushTag] call [GitPush] on these reference
    specifications. *)
Definition GitPushBranch_ref (branch : string) : string :=
  "refs/heads/" +:+ branch +:+ ":refs/heads/" +:+ branch.

Definition GitPushTag_ref (tag : string) : string :=
  "refs/tags/" +:+ tag +:+ ":refs/tags/" +:+ tag.

(** Starting at the page [Page], the service presents the pages [pages]:
    each response names the page that follows, the last one names none. *)
Inductive paged {A} (srv : nat -> result (list A * nat))
    : nat -> list (list A) -> Prop :=
| paged_last Page items :
    srv Page = Ok (items, 0) → paged srv Page [items]
| paged_more Page items NextPage rest :
    srv Page = Ok (items, NextPage) → NextPage ≠ 0 →
    paged srv NextPage rest → paged srv Page (items :: rest).

(** The token is set. *)
Definition has_token (s : Sys) : Prop :=
  ∃ token, env s !! "GITHUB_TOKEN" = Some token ∧ token ≠ "".

(** [m] is refused for want of a token: it fails with the client's error
    after printing its one line, without a call. *)
Definition refused {A} (m : G A) (s : Sys) : Prop :=
  ∃ line, m s = Some (Err "env var GITHUB_TOKEN must be set",
                      {| env := env s; api_calls := api_calls s;
                         printed := printed s ++ [line] |}).

(** The search query of [GetIssue]. *)
Definition issue_query (owner repo title : string) : string :=
  "is:issue repo:" +:+ owner +:+ "/" +:+ repo +:+ " in:title " +:+ title.

(** A service with one page of two issues and no check runs, for running
    the definitions. *)
Definition example_GitHub : GitHub :=
  {| search_issues := fun _ _ _ =>
       Ok ([{| issue_Number := 7; issue_Title := "Release 0.18 (draft)" |};
            {| issue_Number := 9; issue_Title := "Release 0.18" |}], 0);
     issues_create := fun _ _ title _ =>
       Ok {| issue_Number := 10; issue_Title := title |};
     list_comments := fun _ _ _ _ _ => Ok ([], 0);
     create_comment := fun _ _ _ body =>
       Ok {| comment_ID := 1; comment_Body := body |};
     list_check_runs := fun _ _ _ _ _ => Ok ([], 0);
     get_branch := fun _ _ _ => Err "GET branch: 404 Not Found []";
     get_ref := fun _ _ _ => Ok "c0ffee";
     create_ref := fun _ _ _ _ => Ok tt |}.

Definition example_Sys (token : string) : Sys :=
  {| env := {[ "GITHUB_TOKEN" := token ]}; api_calls := []; printed := [] |}.

(** The calls [calls] are searches with the query [q]. *)
Definition searches (q : string) (calls : list ApiCall) : Prop :=
  Forall (fun c => ∃ Page, c = Search_Issues q Page 100) calls.

(** The issue [GetIssue] is after: the first one with the title. *)
Definition first_titled (title : string) (issues : list Issue)
    : option Issue :=
  find (fun i => String.eqb (issue_Title i) title) issues.

(** The pages [GetIssue] reads of a search presented on [pages]: those up
    to and including the first with an issue of that title, and all of them
    when there is none. *)
Fixpoint pages_read (title : string) (pages : list (list Issue)) : nat :=
  match pages with
  | [] => 0
  | items :: rest =>
      if not_nil (first_titled title items) then 1
      else S (pages_read title rest)
  end.

(** A service that answers on two pages: issues on the pages 0 and 2,
    check runs on the pages 0 and 1. *)
Definition example_GitHub_paged : GitHub :=
  {| search_issues := fun _ Page _ =>
       match Page with
       | 0 => Ok ([{| issue_Number := 7;
                      issue_Title := "Release 0.18 (draft)" |};
                   {| issue_Number := 9; issue_Title := "Release 0.18" |}], 2)
       | _ => Ok ([{| issue_Number := 11; issue_Title := "Release 0.19" |}], 0)
       end;
     issues_create := issues_create example_GitHub;
     list_comments := list_comments example_GitHub;
     create_comment := create_comment example_GitHub;
     list_check_runs := fun _ _ _ Page _ =>
       match Page with
       | 0 => Ok ([{| checkrun_ID := 1; checkrun_Name := "build" |};
                   {| checkrun_ID := 2; checkrun_Name := "test" |}], 1)
       | _ => Ok ([{| checkrun_ID := 3; checkrun_Name := "lint" |}], 0)
       end;
     get_branch := get_branch example_GitHub;
     get_ref := get_ref example_GitHub;
     create_ref := create_ref example_GitHub |}.

(** * Properties *)

(** ** The access-control decider *)

Lemma HasPrefix_iff (s pre : string) :
  HasPrefix s pre = true ↔ ∃ t, s = pre +:+ t.
Proof.
  revert s. induction pre as [|c pre IH]; intros s; simpl.
  - split; [intros _; exists s; reflexivity | reflexivity].
  - destruct s as [|d s].
    + split; [done | intros [t Ht]; discriminate].
    + destruct (Ascii.eqb_spec c d) as [->|Hne].
      * rewrite IH. split; intros [t Ht]; exists t.
        -- by rewrite Ht.
        -- by injection Ht.
      * split; [done | intros [t Ht]; injection Ht; congruence].
Qed.

Lemma Decider_restricted (webuipaths : list string) (s : string) :
  Decider false webuipaths s = true ↔
  ∃ webuipath, webuipath ∈ webuipaths ∧ HasPrefix s webuipath = true.
Proof.
  unfold Decider. induction webuipaths as [|p ps IH].
  - split; [done | intros (p & Hp & _); by apply elem_of_nil in Hp].
  - destruct (HasPrefix s p) eqn:Hsp.
    + split; [intros _; exists p; split; [left | done] | done].
    + rewrite IH. split; intros (q & Hq & Hsq); exists q; split; try done.
      * by right.
      * apply elem_of_cons in Hq as [->|Hq]; [congruence | done].
Qed.

(** C7: with the unrestricted-access flag set the decider allows every
    path; with the flag unset it allows a path exactly when one of the
    trusted UI paths is a prefix of it, and denies every other path. *)
Theorem Decider_allows (webuipaths : list string) (s : string) :
  Decider true webuipaths s = true ∧
  (Decider false webuipaths s = true ↔
   ∃ webuipath t, webuipath ∈ webuipaths ∧ s = webuipath +:+ t) ∧
  (Decider false webuipaths s = false ↔
   ∀ webuipath t, webuipath ∈ webuipaths → s ≠ webuipath +:+ t).
Proof.
  assert (Hiff : Decider false webuipaths s = true ↔
                 ∃ webuipath t, webuipath ∈ webuipaths ∧ s = webuipath +:+ t).
  { rewrite Decider_restricted. split.
    - intros (p & Hp & Hsp). apply HasPrefix_iff in Hsp as [t Ht]. eauto.
    - intros (p & t & Hp & Ht). exists p. split; [done|].
      apply HasPrefix_iff. eauto. }
  split; [done|]. split; [done|].
  destruct (Decider false webuipaths s) eqn:Hd.
  - split; [done|]. intros Hno.
    destruct (proj1 Hiff eq_refl) as (p & t & Hp & Ht).
    by destruct (Hno p t Hp).
  - split; [|done]. intros _ p t Hp Ht.
    assert (false = true) by (apply Hiff; eauto).
    congruence.
Qed.

(** ** The launchers *)

(** Unfolding the monad. *)
Ltac unfold_M :=
  unfold mbind, mret, M_bind, M_ret, bind, ret, try, check, orSetError,
    on_error, Printf, manet_listen, go_Serve, call_ConstructNode, FileExists,
    call_initWithDefaults in *.

Lemma mountHTTPapi_Ok E req w c w' :
  mountHTTPapi E req w = (Ok c, w') →
  ∃ cfg maddr bound unrestricted found node opts,
    GetConfig req = Ok cfg ∧
    NewMultiaddr E (Addresses_API cfg) = Ok maddr ∧
    manet_Listen E maddr = Ok bound ∧
    Option_Bool req unrestrictedApiAccess = (unrestricted, found, None) ∧
    ConstructNode w = Ok node ∧
    c = make_chan (launcher_goroutine (corehttp_Serve E API)) ∧
    opts !! 2 = Some (GatewayServeOption
                        {| Writable := true;
                           BlockList_Decider :=
                             Decider unrestricted (WebUIPaths E) |}) ∧
    (∀ o, o ∈ opts → ∀ b, o ≠ GatewayOption b) ∧
    (∀ g, GatewayServeOption g ∈ opts → Writable g = true) ∧
    w' = add_serving (API, opts)
           (add_stdout ("API server listening on " +:+ bound)
              (add_listener (API, bound) w)).
Proof.
  unfold mountHTTPapi. unfold_M. intros H.
  destruct (GetConfig req) as [cfg|]; [|done].
  destruct (NewMultiaddr E (Addresses_API cfg)) as [maddr|] eqn:Hma; [|done].
  destruct (manet_Listen E maddr) as [bound|] eqn:Hlis; [|done].
  destruct (Option_Bool req unrestrictedApiAccess) as [[unrestricted found] err].
  destruct err; [done|]. simpl in H.
  destruct (ConstructNode w) as [node|] eqn:Hnode; [|done].
  injection H as <- <-.
  eexists cfg, maddr, bound, unrestricted, found, node, _.
  repeat split; try done.
  - by destruct (0 <? String.length (Gateway_RootRedirect cfg))%nat.
  - intros o Ho b ->.
    destruct (0 <? String.length (Gateway_RootRedirect cfg))%nat;
      repeat (apply elem_of_cons in Ho as [Ho|Ho]; [done|]);
      by apply elem_of_nil in Ho.
  - intros g Hg.
    destruct (0 <? String.length (Gateway_RootRedirect cfg))%nat;
      repeat (apply elem_of_cons in Hg as [Hg|Hg]; [by simplify_eq|]);
      try by apply elem_of_nil in Hg.
Qed.

Lemma mountHTTPgw_Ok E req w c w' :
  mountHTTPgw E req w = (Ok c, w') →
  ∃ cfg maddr bound writable found node opts,
    GetConfig req = Ok cfg ∧
    NewMultiaddr E (Addresses_Gateway cfg) = Ok maddr ∧
    Option_Bool req writableKwd = (writable, found, None) ∧
    manet_Listen E maddr = Ok bound ∧
    ConstructNode w = Ok node ∧
    c = make_chan (launcher_goroutine (corehttp_Serve E Gateway)) ∧
    opts !! 2 = Some (GatewayOption
                        (if found then writable else Gateway_Writable cfg)) ∧
    listeners w' = listeners w ++ [(Gateway, bound)] ∧
    serving w' = serving w ++ [(Gateway, opts)].
Proof.
  unfold mountHTTPgw. unfold_M. intros H.
  destruct (GetConfig req) as [cfg|]; [|done].
  destruct (NewMultiaddr E (Addresses_Gateway cfg)) as [maddr|] eqn:Hma;
    [|done].
  destruct (Option_Bool req writableKwd) as [[writable found] err].
  destruct err; [done|]. simpl in H.
  destruct (manet_Listen E maddr) as [bound|] eqn:Hlis; [|done].
  exists cfg, maddr, bound, writable, found.
  destruct found; simpl in H;
    [destruct writable | destruct (Gateway_Writable cfg)]; simpl in H;
    destruct (ConstructNode w) as [node|] eqn:Hnode; try done;
    injection H as <- <-; eexists node, _; repeat split; try done;
    by destruct (0 <? String.length (Gateway_RootRedirect cfg))%nat.
Qed.

Lemma make_chan_launcher (serve : option error) :
  one_shot_never_closed (make_chan (launcher_goroutine serve)).
Proof.
  destruct serve as [e|]; eexists; (split; [reflexivity | simpl; lia]).
Qed.

(** C3, as the code has it: the error signal a launcher returns carries at
    most one error value and the launcher's goroutine never closes it; what
    it carries is the result of [corehttp.Serve] for that launcher's
    service, once [Serve] has returned, and nothing as long as it has
    not. *)
Theorem launcher_signal_one_shot_never_closed E req w c w' svc :
  match svc with
  | API => mountHTTPapi E req w
  | Gateway => mountHTTPgw E req w
  end = (Ok c, w') →
  one_shot_never_closed c ∧
  c = chan (option_list (corehttp_Serve E svc)) false.
Proof.
  intros H.
  assert (Hc : c = make_chan (launcher_goroutine (corehttp_Serve E svc))).
  { destruct svc.
    - by apply mountHTTPapi_Ok in H
        as (? & ? & ? & ? & ? & ? & ? & _ & _ & _ & _ & _ & -> & _).
    - by apply mountHTTPgw_Ok in H
        as (? & ? & ? & ? & ? & ? & ? & _ & _ & _ & _ & _ & -> & _). }
  subst c. split; [apply make_chan_launcher|].
  by destruct (corehttp_Serve E svc).
Qed.

Lemma launcher_signal_one_shot_never_closed_witness :
  one_shot_never_closed (chan [None] false) ∧
  chan [None] false
  = chan (option_list (corehttp_Serve (example_E None) API)) false.
Proof.
  apply (launcher_signal_one_shot_never_closed (example_E None)
           (example_req "" "" [])
           (set_ConstructNode (Ok example_node) (example_world "" []))
           (chan [None] false)
           (add_serving
              (API, [CommandsOption; WebUIOption;
                     GatewayServeOption
                       {| Writable := true;
                          BlockList_Decider :=
                            Decider false ["/ipfs/QmWebUI"; "/webui"] |};
                     VersionOption; defaultMux "/debug/vars";
                     defaultMux "/debug/pprof/"])
              (add_stdout "API server listening on /ip4/127.0.0.1/tcp/5001"
                 (add_listener (API, "/ip4/127.0.0.1/tcp/5001")
                    (set_ConstructNode (Ok example_node)
                       (example_world "" [])))))
           API).
  reflexivity.
Defined.

(** C3, as the spec states it, fails: the API launcher's signal, after
    [corehttp.Serve] returned [nil], has delivered one value and is not
    closed. *)
Lemma launcher_signal_not_closed :
  (mountHTTPapi (example_E None) (example_req "" "" [])
     (set_ConstructNode (Ok example_node) (example_world "" []))).1
  = Ok (chan [None] false) ∧
  ¬ one_shot_then_closed (chan [None] false).
Proof.
  split; [reflexivity|]. intros (vs & Hvs & _). discriminate.
Qed.


(** ** The initialize-if-absent step *)

(** C9: with the initialize flag set and a repository present at the
    target path, the step does nothing and reports nothing, once or twice
    in a row. *)
Theorem initialize_if_absent_idempotent E req w :
  is_Some (repos w !! ConfigRoot req) →
  initialize_if_absent E req true w = (Ok tt, w) ∧
  (initialize_if_absent E req true ;; initialize_if_absent E req true) w
  = (Ok tt, w).
Proof.
  intros Hex.
  assert (H1 : initialize_if_absent E req true w = (Ok tt, w)).
  { unfold initialize_if_absent. unfold_M.
    by rewrite bool_decide_eq_true_2. }
  split; [done|].
  change ((initialize_if_absent E req true ;; initialize_if_absent E req true) w)
    with (bind (initialize_if_absent E req true)
            (fun _ => initialize_if_absent E req true) w).
  unfold bind. by rewrite H1.
Qed.

Lemma initialize_if_absent_idempotent_witness :
  initialize_if_absent (example_E None) (example_req "" "" []) true
    (example_world "" [])
  = (Ok tt, example_world "" []).
Proof.
  apply (initialize_if_absent_idempotent (example_E None)
           (example_req "" "" []) (example_world "" [])).
  exists (example_repo "" []). reflexivity.
Defined.

(** ** Routing backend selection *)

Lemma append_infos (servers : list IPFSAddr) (acc : list PeerInfo) :
  fold_left (fun infos addr => infos ++ [PeerInfo_of addr]) servers acc
  = acc ++ map PeerInfo_of servers.
Proof.
  revert acc. induction servers as [|a servers IH]; intros acc; simpl.
  - by rewrite app_nil_r.
  - rewrite IH. by rewrite <- app_assoc.
Qed.

Lemma ServerIPFSAddrs_Ok E (servers : list string) (addrs : list IPFSAddr) :
  ServerIPFSAddrs E servers = Ok addrs →
  Forall2 (fun s addr => ParseIPFSAddr E s = Ok addr) servers addrs.
Proof.
  revert addrs. induction servers as [|s servers IH]; intros addrs; simpl.
  - intros [= <-]. constructor.
  - destruct (ParseIPFSAddr E s) as [a|] eqn:Hs; [|done].
    destruct (ServerIPFSAddrs E servers) as [l|]; [|done].
    intros [= <-]. constructor; auto.
Qed.

Lemma ServerIPFSAddrs_Err E (servers : list string) :
  Exists (fun s => ∃ msg, ParseIPFSAddr E s = Err msg) servers →
  ∃ msg, ServerIPFSAddrs E servers = Err msg.
Proof.
  induction 1 as [s servers [msg Hs]|s servers _ [msg IH]]; simpl.
  - rewrite Hs. eauto.
  - destruct (ParseIPFSAddr E s); [rewrite IH|]; eauto.
Qed.

(** C5: the option value ["supernode"] selects a fixed peer set with one
    entry per configured peer, made of the peer's identity and its transport
    address; every other value leaves the builder's default routing and
    does not fail. *)
Theorem routing_backend_selection E req repo w routingOption found :
  Option_String req routingOptionKwd = (routingOption, found, None) →
  (routingOption ≠ "supernode" →
     select_routing E req repo (SetRepo repo (Online NewNodeBuilder)) w
     = (Ok (SetRepo repo (Online NewNodeBuilder)), w) ∧
     nb_routing (SetRepo repo (Online NewNodeBuilder)) = Default) ∧
  (routingOption = "supernode" →
     ∀ servers,
       ServerIPFSAddrs E (SupernodeRouting_Servers (fsrepo_Config repo))
       = Ok servers →
       select_routing E req repo (SetRepo repo (Online NewNodeBuilder)) w
       = (Ok (SetRouting (FixedPeerSet (map PeerInfo_of servers))
                (SetRepo repo (Online NewNodeBuilder))), w) ∧
       Forall2 (fun s info =>
                  ∃ addr, ParseIPFSAddr E s = Ok addr ∧
                          ID info = addr_ID addr ∧
                          Addrs info = [addr_Transport addr])
         (SupernodeRouting_Servers (fsrepo_Config repo))
         (map PeerInfo_of servers)).
Proof.
  intros Hopt. unfold select_routing. rewrite Hopt. unfold_M. simpl.
  split.
  - intros Hne. apply String.eqb_neq in Hne.
    unfold routingOptionSupernodeKwd. by rewrite Hne.
  - intros -> servers Hs. rewrite Hs. simpl. split.
    + pose proof (append_infos servers []) as Hf. unfold PeerInfo_of in Hf.
      unfold SupernodeClient. simpl in Hf. by rewrite Hf.
    + apply ServerIPFSAddrs_Ok in Hs. clear -Hs.
      induction Hs; constructor; eauto.
Qed.

Lemma routing_backend_selection_witness :
  select_routing (example_E None)
    (example_req "supernode" "" ["/ip4/127.0.0.1/tcp/4001/ipfs/P"])
    (example_fsrepo ["/ip4/127.0.0.1/tcp/4001/ipfs/P"])
    (SetRepo (example_fsrepo ["/ip4/127.0.0.1/tcp/4001/ipfs/P"])
       (Online NewNodeBuilder))
    (example_world "" [])
  = (Ok (SetRouting
           (FixedPeerSet [{| ID := "P";
                             Addrs := ["/ip4/127.0.0.1/tcp/4001"] |}])
           (SetRepo (example_fsrepo ["/ip4/127.0.0.1/tcp/4001/ipfs/P"])
              (Online NewNodeBuilder))),
     example_world "" []).
Proof.
  apply (proj2 (routing_backend_selection (example_E None)
                  (example_req "supernode" "" ["/ip4/127.0.0.1/tcp/4001/ipfs/P"])
                  (example_fsrepo ["/ip4/127.0.0.1/tcp/4001/ipfs/P"])
                  (example_world "" []) "supernode" true eq_refl)
           eq_refl
           [{| addr_ID := "P"; addr_Transport := "/ip4/127.0.0.1/tcp/4001" |}]
           eq_refl).
Defined.

(** The options [""] and ["bogus"] both leave the default routing, also
    with a malformed server address in the configuration. *)
Example routing_empty_and_bogus_are_default :
  (select_routing (example_E None) (example_req "" "" [])
     (example_fsrepo ["not an address"])
     (SetRepo (example_fsrepo ["not an address"]) (Online NewNodeBuilder))
     (example_world "" [])).1
  = Ok (SetRepo (example_fsrepo ["not an address"]) (Online NewNodeBuilder)) ∧
  (select_routing (example_E None) (example_req "bogus" "" [])
     (example_fsrepo ["not an address"])
     (SetRepo (example_fsrepo ["not an address"]) (Online NewNodeBuilder))
     (example_world "" [])).1
  = Ok (SetRepo (example_fsrepo ["not an address"]) (Online NewNodeBuilder)).
Proof. split; reflexivity. Qed.

(** ** Frame rules of the monad *)

Section Frame.
Context (R : World -> World -> Prop) `{!PreOrder R}.

Lemma preserves_mret {A} (a : A) : preserves R (mret a : M A).
Proof. intros w r w' [= <- <-]. reflexivity. Qed.

Lemma preserves_mbind {A B} (m : M A) (k : A -> M B) :
  preserves R m → (∀ a, preserves R (k a)) → preserves R (m ≫= k).
Proof.
  intros Hm Hk w r w'. unfold mbind, M_bind, bind.
  destruct (m w) as [[a|msg] w1] eqn:Hmw; intros H.
  - transitivity w1; [by eapply Hm | by eapply Hk].
  - injection H as <- <-. by eapply Hm.
Qed.

Lemma preserves_check wrap err : preserves R (check wrap err).
Proof. intros w r w'. unfold check. destruct err; intros [= <- <-]; reflexivity. Qed.

Lemma preserves_try {A} wrap (x : result A) : preserves R (try wrap x).
Proof. intros w r w'. unfold try. destruct x; intros [= <- <-]; reflexivity. Qed.

Lemma preserves_update (f : World -> World) :
  (∀ w, R w (f w)) → preserves R ((fun w => (Ok tt, f w)) : M unit).
Proof. intros Hf w r w' [= <- <-]. apply Hf. Qed.

Lemma preserves_on_error {A} cleanup (m : M A) :
  (∀ w, R w (cleanup w)) → preserves R m → preserves R (on_error cleanup m).
Proof.
  intros Hc Hm w r w'. unfold on_error.
  destruct (m w) as [[a|msg] w1] eqn:Hmw; intros [= <- <-].
  - by eapply Hm.
  - transitivity w1; [by eapply Hm | apply Hc].
Qed.

Lemma preserves_orSetError {A} (m : M A) :
  (∀ e w, R w (set_res_error e w)) → preserves R m →
  preserves R (orSetError m).
Proof.
  intros Hc Hm w r w'. unfold orSetError.
  destruct (m w) as [[a|msg] w1] eqn:Hmw; intros [= <- <-].
  - by eapply Hm.
  - transitivity w1; [by eapply Hm | apply Hc].
Qed.
End Frame.

#[global] Instance no_new_gateway_preorder : PreOrder no_new_gateway.
Proof.
  split.
  - by intros w.
  - intros w1 w2 w3 [H1 H2] [H3 H4]. split; eauto.
Qed.

(** Walks through monadic code, leaving the updates of the world. *)
Ltac frame :=
  repeat first
    [ apply preserves_mret; [tc_solve]
    | apply preserves_check; [tc_solve]
    | apply preserves_try; [tc_solve]
    | apply preserves_mbind; [tc_solve| |intros ?]
    | apply preserves_orSetError; [tc_solve|intros ? ?|]
    | apply preserves_on_error; [tc_solve|intros ?|]
    | apply preserves_update; [tc_solve|intros ?]
    | case_match ].

Lemma no_new_gateway_same w w' :
  listeners w' = listeners w → serving w' = serving w → no_new_gateway w w'.
Proof. intros Hl Hs. split; intros x; by rewrite ?Hl, ?Hs. Qed.

Lemma no_new_gateway_API_listener a w :
  no_new_gateway w (add_listener (API, a) w).
Proof.
  split; simpl; [|done]. intros x Hx.
  apply elem_of_app in Hx as [Hx|Hx]; [done|].
  by apply list_elem_of_singleton in Hx.
Qed.

Lemma no_new_gateway_API_serving opts w :
  no_new_gateway w (add_serving (API, opts) w).
Proof.
  split; simpl; [done|]. intros x Hx.
  apply elem_of_app in Hx as [Hx|Hx]; [done|].
  by apply list_elem_of_singleton in Hx.
Qed.

(** The leaves [frame] stops at. *)
Ltac frame_leaf :=
  let w := fresh "w" in
  intros w ? ?; unfold try; intros;
  repeat case_match; simplify_eq;
  first [ apply no_new_gateway_API_listener
        | apply no_new_gateway_API_serving
        | by apply no_new_gateway_same ].

Lemma mountHTTPapi_no_new_gateway E req :
  preserves no_new_gateway (mountHTTPapi E req).
Proof.
  unfold mountHTTPapi, Printf, manet_listen, go_Serve, call_ConstructNode.
  frame; frame_leaf.
Qed.

Lemma mountFuse_no_new_gateway E req :
  preserves no_new_gateway (mountFuse E req).
Proof.
  unfold mountFuse, Printf, call_ConstructNode.
  frame; try frame_leaf; by apply no_new_gateway_same.
Qed.

Lemma initialize_if_absent_no_new_gateway E req initialize :
  preserves no_new_gateway (initialize_if_absent E req initialize).
Proof.
  unfold initialize_if_absent, FileExists, call_initWithDefaults.
  frame; try frame_leaf; try by apply no_new_gateway_same.
  intros w r w'. destruct (initWithDefaults E (ConfigRoot req) (repos w)).
  unfold check. intros; case_match; simplify_eq;
    by apply no_new_gateway_same.
Qed.

Lemma select_routing_no_new_gateway E req repo nb :
  preserves no_new_gateway (select_routing E req repo nb).
Proof.
  unfold select_routing.
  frame; try frame_leaf; try by apply no_new_gateway_same.
Qed.

(** ** The bootstrap without a gateway address *)

Lemma no_new_gateway_set_res_error e w w' :
  no_new_gateway w w' → no_new_gateway w (set_res_error e w').
Proof. intros H. etransitivity; [apply H|]. by apply no_new_gateway_same. Qed.

Lemma launch_services_no_gateway E req cfg node w r w' :
  Addresses_Gateway cfg = "" →
  launch_services E req cfg node w = (r, w') →
  no_new_gateway w w' ∧
  ∀ cs, r = Ok cs →
        cs = [make_chan (launcher_goroutine (corehttp_Serve E API)); nil_chan].
Proof.
  intros Hgw. unfold launch_services. rewrite Hgw. simpl.
  unfold mbind, mret, M_bind, M_ret, bind, ret, orSetError.
  destruct (mountHTTPapi E req (set_ConstructNode (Ok node) w))
    as [[c|e] w1] eqn:Hapi.
  - pose proof (mountHTTPapi_no_new_gateway _ _ _ _ _ Hapi) as Hw1.
    assert (Hw : no_new_gateway w w1).
    { etransitivity; [|apply Hw1]. by apply no_new_gateway_same. }
    apply mountHTTPapi_Ok in Hapi
      as (? & ? & ? & ? & ? & ? & ? & _ & _ & _ & _ & _ & -> & _).
    destruct (Option_Bool req mountKwd) as [[mount found] err].
    unfold check. destruct err as [e|].
    { intros [= <- <-]. split; [|done]. by apply no_new_gateway_set_res_error. }
    destruct mount.
    + destruct (mountFuse E req w1) as [[[]|e] w2] eqn:Hfuse;
        pose proof (mountFuse_no_new_gateway _ _ _ _ _ Hfuse) as Hw2;
        intros [= <- <-].
      * split; [by etransitivity | by intros cs [= <-]].
      * split; [|done]. apply no_new_gateway_set_res_error.
        by etransitivity.
    + intros [= <- <-]. split; [done | by intros cs [= <-]].
  - pose proof (mountHTTPapi_no_new_gateway _ _ _ _ _ Hapi) as Hw1.
    intros [= <- <-]. split; [|done].
    apply no_new_gateway_set_res_error.
    etransitivity; [|apply Hw1]. by apply no_new_gateway_same.
Qed.

Lemma fsrepo_Open_no_new_gateway root :
  preserves no_new_gateway (fsrepo_Open root).
Proof.
  intros w r w'. unfold fsrepo_Open. intros.
  repeat case_match; simplify_eq; by apply no_new_gateway_same.
Qed.

Lemma node_Close_no_new_gateway node w :
  no_new_gateway w (node_Close node w).
Proof.
  unfold node_Close. destruct (node_repo node); by apply no_new_gateway_same.
Qed.

(** C8: when the configured gateway address is empty, the bootstrap binds
    no gateway listener and starts no gateway service, however it ends, and
    if it reaches [merge], the gateway's slot of the call is the nil
    channel, for which [merge] starts no [output] goroutine: the API's is
    the only one. *)
Theorem no_gateway_without_address E req w cfg r w' :
  GetConfig req = Ok cfg →
  Addresses_Gateway cfg = "" →
  daemonFunc_bootstrap E req w = (r, w') →
  no_new_gateway w w' ∧
  ∀ node cs, r = Ok (node, cs) →
    ∃ apiErrc, cs = [apiErrc; nil_chan] ∧ apiErrc ≠ nil_chan ∧
               length (outputs (merge cs)) = 1.
Proof.
  intros Hcfg Hgw. unfold daemonFunc_bootstrap.
  unfold mbind, mret, M_bind, M_ret, bind, ret, Printf.
  set (w0 := add_stdout _ w).
  assert (H0 : no_new_gateway w w0) by by apply no_new_gateway_same.
  destruct (Option_Bool req initOptionKwd) as [[initialize ?] err].
  unfold orSetError at 1, check at 1. destruct err as [e|].
  { intros [= <- <-]. split; [|done]. by apply no_new_gateway_set_res_error. }
  destruct (initialize_if_absent E req initialize w0) as [[[]|e] w1] eqn:H1;
    apply initialize_if_absent_no_new_gateway in H1;
    [|intros [= <- <-]; split; [by etransitivity | done]].
  unfold orSetError at 1.
  destruct (fsrepo_Open (ConfigRoot req) w1) as [[repo|e] w2] eqn:H2;
    apply fsrepo_Open_no_new_gateway in H2;
    [|intros [= <- <-]; split; [|done];
      apply no_new_gateway_set_res_error; by repeat (etransitivity; [eassumption|])].
  rewrite Hcfg. unfold orSetError at 1, try at 1.
  destruct (select_routing E req repo _ w2) as [[nb|e] w3] eqn:H3;
    apply select_routing_no_new_gateway in H3;
    [|intros [= <- <-]; split; [|done];
      by repeat (etransitivity; [eassumption|])].
  unfold orSetError at 1, Build at 1.
  destruct (nb_Build E nb) as [e|].
  { intros [= <- <-]. split; [|done]. apply no_new_gateway_set_res_error.
    by repeat (etransitivity; [eassumption|]). }
  unfold on_error.
  match goal with
  | |- context [launch_services E req cfg ?n w3] => set (node := n)
  end.
  destruct (launch_services E req cfg node w3) as [[cs|e] w4] eqn:H4;
    apply (launch_services_no_gateway _ _ _ _ _ _ _ Hgw) in H4 as [H4 Hcs];
    intros [= <- <-].
  - split; [by repeat (etransitivity; [eassumption|])|].
    intros node' cs' [= <- <-]. rewrite (Hcs _ eq_refl).
    eexists. split; [reflexivity|]. split; [|reflexivity].
    unfold make_chan. discriminate.
  - split; [|done].
    etransitivity; [|apply node_Close_no_new_gateway].
    by repeat (etransitivity; [eassumption|]).
Qed.

Lemma no_gateway_without_address_witness :
  no_new_gateway (example_world "" [])
    (daemonFunc_bootstrap (example_E None) (example_req "" "" [])
       (example_world "" [])).2 ∧
  ∀ node cs,
    (daemonFunc_bootstrap (example_E None) (example_req "" "" [])
       (example_world "" [])).1 = Ok (node, cs) →
    ∃ apiErrc, cs = [apiErrc; nil_chan] ∧ apiErrc ≠ nil_chan ∧
               length (outputs (merge cs)) = 1.
Proof.
  apply (no_gateway_without_address (example_E None) (example_req "" "" [])
           (example_world "" []) (example_config "" [])).
  - reflexivity.
  - reflexivity.
  - reflexivity.
Defined.

(** With the example's collaborators the bootstrap does reach [merge], with
    the API's signal and a nil channel. *)
Example bootstrap_reaches_merge :
  (daemonFunc_bootstrap (example_E None) (example_req "" "" [])
     (example_world "" [])).1
  = Ok ({| node_online := true;
           node_repo := Some (example_fsrepo []);
           node_routing := Default |},
        [chan [None] false; nil_chan]).
Proof. reflexivity. Qed.

(** ** The bootstrap up to routing selection *)

(** With the repository present, sound and unlocked, and the configuration
    readable, the bootstrap holds the lock when it selects the routing. *)
Lemma bootstrap_to_selection E req w r cfg initialize initFound :
  Option_Bool req initOptionKwd = (initialize, initFound, None) →
  repos w !! ConfigRoot req = Some r →
  repo_corrupt r = false →
  ConfigRoot req ∉ locks w →
  GetConfig req = Ok cfg →
  let repo := {| fsrepo_path := ConfigRoot req;
                 fsrepo_Config := repo_config r |} in
  daemonFunc_bootstrap E req w
  = (nb ← select_routing E req repo (SetRepo repo (Online NewNodeBuilder));
     node ← orSetError (Build E nb);
     cs ← on_error (node_Close node) (launch_services E req cfg node);
     mret (node, cs))
      (set_locks (fun ls => {[ConfigRoot req]} ∪ ls)
         (add_stdout "Initializing daemon..." w)).
Proof.
  intros Hinit Hrepo Hsound Hfree Hcfg repo.
  unfold daemonFunc_bootstrap, initialize_if_absent, fsrepo_Open.
  rewrite Hinit, Hcfg. unfold_M. simpl.
  assert (Hex : bool_decide (is_Some (repos w !! ConfigRoot req)) = true).
  { apply bool_decide_eq_true_2. rewrite Hrepo. eauto. }
  assert (Hfr : bool_decide (ConfigRoot req ∈ locks w) = false)
    by by apply bool_decide_eq_false_2.
  destruct initialize; simpl; rewrite ?Hex; simpl;
    rewrite Hfr, Hrepo, Hsound; reflexivity.
Qed.

(** ** A malformed supernode address *)

(** C6: in supernode mode, when one of the configured server addresses is
    malformed, the bootstrap that has taken the repository lock ends at the
    routing selection with an error: no routing is set, no node is built, no
    listener is bound, no service is started, and the lock is released, so
    that the repository can be opened again. *)
Theorem malformed_supernode_address_aborts
    E req w r cfg initialize initFound routingFound :
  Option_Bool req initOptionKwd = (initialize, initFound, None) →
  repos w !! ConfigRoot req = Some r →
  repo_corrupt r = false →
  ConfigRoot req ∉ locks w →
  GetConfig req = Ok cfg →
  Option_String req routingOptionKwd = ("supernode", routingFound, None) →
  Exists (fun s => ∃ msg, ParseIPFSAddr E s = Err msg)
    (SupernodeRouting_Servers (repo_config r)) →
  ∃ msg w',
    daemonFunc_bootstrap E req w = (Err msg, w') ∧
    res_error w' = Some msg ∧
    listeners w' = listeners w ∧
    serving w' = serving w ∧
    mounted w' = mounted w ∧
    closed_nodes w' = closed_nodes w ∧
    ConstructNode w' = ConstructNode w ∧
    locks w' = locks w ∧
    (∀ nb w1,
       (select_routing E req
          {| fsrepo_path := ConfigRoot req; fsrepo_Config := repo_config r |}
          nb w1).1 = Err msg) ∧
    ∃ repo w'', fsrepo_Open (ConfigRoot req) w' = (Ok repo, w'').
Proof.
  intros Hinit Hrepo Hsound Hfree Hcfg Hopt Hbad.
  rewrite (bootstrap_to_selection E req w r cfg initialize initFound)
    by done.
  apply ServerIPFSAddrs_Err in Hbad as [msg Hbad].
  unfold select_routing. rewrite Hopt. unfold_M. simpl. rewrite Hbad. simpl.
  eexists msg, _. split; [reflexivity|]. simpl.
  assert (Hlocks : ({[ConfigRoot req]} ∪ locks w) ∖ {[ConfigRoot req]}
                   = locks w).
  { apply set_eq. intros x.
    rewrite elem_of_difference, elem_of_union, elem_of_singleton.
    split; [by intros [[->|Hx] Hne] | intros Hx; split; [by right|]].
    by intros ->. }
  split_and!; try done.
  unfold fsrepo_Open. simpl. rewrite Hlocks.
  rewrite bool_decide_eq_false_2 by done. rewrite Hrepo, Hsound. eauto.
Qed.

Lemma malformed_supernode_address_aborts_witness :
  ∃ msg w',
    daemonFunc_bootstrap (example_E None)
      (example_req "supernode" ""
         ["/ip4/127.0.0.1/tcp/4001/ipfs/P"; "not an address"])
      (example_world "" ["/ip4/127.0.0.1/tcp/4001/ipfs/P"; "not an address"])
    = (Err msg, w') ∧
    res_error w' = Some msg ∧
    listeners w' = [] ∧
    serving w' = [] ∧
    mounted w' = [] ∧
    closed_nodes w' = [] ∧
    ConstructNode w' = Err "no node" ∧
    locks w' = ∅ ∧
    (∀ nb w1,
       (select_routing (example_E None)
          (example_req "supernode" ""
             ["/ip4/127.0.0.1/tcp/4001/ipfs/P"; "not an address"])
          (example_fsrepo ["/ip4/127.0.0.1/tcp/4001/ipfs/P"; "not an address"])
          nb w1).1 = Err msg) ∧
    ∃ repo w'', fsrepo_Open "/repo" w' = (Ok repo, w'').
Proof.
  apply (malformed_supernode_address_aborts (example_E None)
           (example_req "supernode" ""
              ["/ip4/127.0.0.1/tcp/4001/ipfs/P"; "not an address"])
           (example_world "" ["/ip4/127.0.0.1/tcp/4001/ipfs/P"; "not an address"])
           (example_repo "" ["/ip4/127.0.0.1/tcp/4001/ipfs/P"; "not an address"])
           (example_config "" ["/ip4/127.0.0.1/tcp/4001/ipfs/P"; "not an address"])
           false false true).
  - reflexivity.
  - reflexivity.
  - reflexivity.
  - apply not_elem_of_empty.
  - reflexivity.
  - reflexivity.
  - apply Exists_cons_tl, Exists_cons_hd. eexists. reflexivity.
Defined.

(** ** A failing node construction *)

(** C1, on the code: when [nb.Build] fails, the bootstrap returns with the
    error and without closing the repository: the lock it took is still
    held and the repository cannot be opened again. *)
Theorem Build_failure_keeps_repo_locked
    E req w r cfg initialize initFound routingOption routingFound msg :
  Option_Bool req initOptionKwd = (initialize, initFound, None) →
  repos w !! ConfigRoot req = Some r →
  repo_corrupt r = false →
  ConfigRoot req ∉ locks w →
  GetConfig req = Ok cfg →
  Option_String req routingOptionKwd = (routingOption, routingFound, None) →
  (∃ addrs, ServerIPFSAddrs E (SupernodeRouting_Servers (repo_config r))
            = Ok addrs) →
  (∀ nb, nb_Build E nb = Some msg) →
  ∃ w',
    daemonFunc_bootstrap E req w = (Err msg, w') ∧
    res_error w' = Some msg ∧
    closed_nodes w' = closed_nodes w ∧
    ConfigRoot req ∈ locks w' ∧
    fsrepo_Open (ConfigRoot req) w' = (Err "repo lock held", w').
Proof.
  intros Hinit Hrepo Hsound Hfree Hcfg Hopt [addrs Haddrs] Hbuild.
  rewrite (bootstrap_to_selection E req w r cfg initialize initFound)
    by done.
  unfold select_routing, Build. rewrite Hopt. unfold_M. simpl.
  rewrite Haddrs. simpl.
  destruct (String.eqb routingOption routingOptionSupernodeKwd);
    rewrite Hbuild; simpl;
    (eexists; split; [reflexivity|]; simpl; repeat split; try done;
     [set_solver
     |unfold fsrepo_Open; simpl; rewrite bool_decide_eq_true_2 by set_solver;
      done]).
Qed.

Lemma Build_failure_keeps_repo_locked_witness :
  ∃ w',
    daemonFunc_bootstrap (example_E (Some "build failed"))
      (example_req "" "" []) (example_world "" [])
    = (Err "build failed", w') ∧
    res_error w' = Some "build failed" ∧
    closed_nodes w' = [] ∧
    "/repo" ∈ locks w' ∧
    fsrepo_Open "/repo" w' = (Err "repo lock held", w').
Proof.
  apply (Build_failure_keeps_repo_locked (example_E (Some "build failed"))
           (example_req "" "" []) (example_world "" [])
           (example_repo "" []) (example_config "" [])
           false false "" false "build failed").
  - reflexivity.
  - reflexivity.
  - reflexivity.
  - apply not_elem_of_empty.
  - reflexivity.
  - reflexivity.
  - exists []. reflexivity.
  - intros nb. reflexivity.
Defined.

(** ** The goroutines of [merge] *)

Lemma sum_outputs_app f (os1 os2 : list output_goroutine) :
  sum_outputs f (os1 ++ os2) = sum_outputs f os1 + sum_outputs f os2.
Proof. induction os1 as [|o os1 IH]; simpl; [done | rewrite IH; lia]. Qed.

Lemma sum_outputs_insert f (os : list output_goroutine) i o o' :
  os !! i = Some o →
  sum_outputs f (<[i := o']> os) + f o = sum_outputs f os + f o'.
Proof.
  revert i. induction os as [|x os IH]; intros [|i]; simpl; try done.
  - intros [= ->]. lia.
  - intros H. specialize (IH i H). lia.
Qed.

Lemma sum_outputs_lookup_le f (os : list output_goroutine) i o :
  os !! i = Some o → f o ≤ sum_outputs f os.
Proof.
  revert i. induction os as [|x os IH]; intros [|i]; simpl; try done.
  - intros [= ->]. lia.
  - intros H. specialize (IH i H). lia.
Qed.

Lemma sum_outputs_pos f (os : list output_goroutine) :
  0 < sum_outputs f os → ∃ i o, os !! i = Some o ∧ 0 < f o.
Proof.
  induction os as [|x os IH]; simpl; [lia|]. intros H.
  destruct (f x) as [|k] eqn:Hx.
  - destruct IH as (i & o & Hi & Ho); [lia|]. by exists (S i), o.
  - exists 0, x. split; [done | lia].
Qed.

Lemma sum_outputs_zero f (os : list output_goroutine) :
  Forall (fun o => f o = 0) os → sum_outputs f os = 0.
Proof. induction 1 as [|o os Ho _ IH]; simpl; [done | lia]. Qed.

(** *** Every step uses up fuel: runs are finite *)

Lemma step_fuel g s s' : step g s = Some s' → fuel s' < fuel s.
Proof.
  unfold fuel. destruct g as [i| |]; simpl.
  - destruct (outputs s !! i) as [[p c a]|] eqn:Hi; [|done]. simpl.
    destruct a as [|n|]; [| |done].
    + destruct p as [|n rest].
      * destruct c; [|done]. intros [= <-]. simpl.
        pose proof (sum_outputs_insert fuel_of_output _ i _
                      {| src_pending := []; src_closes := true;
                         at_ := Finished |} Hi) as Hs.
        unfold fuel_of_output at 2 4 in Hs. simpl in Hs. lia.
      * intros [= <-]. simpl.
        pose proof (sum_outputs_insert fuel_of_output _ i _
                      {| src_pending := rest; src_closes := c;
                         at_ := Sending n |} Hi) as Hs.
        unfold fuel_of_output at 2 4 in Hs. simpl in Hs. lia.
    + destruct (loop s) eqn:Hl; try done.
      destruct (out_closed s) eqn:Hc; [done|]. intros [= <-]. simpl.
      rewrite Hc.
      pose proof (sum_outputs_insert fuel_of_output _ i _
                    {| src_pending := p; src_closes := c;
                       at_ := Receiving |} Hi) as Hs.
      unfold fuel_of_output at 2 4 in Hs. simpl in Hs.
      destruct n; lia.
  - destruct (out_closed s) eqn:Hc; [done|].
    destruct (wg s =? 0)%Z; [|done]. intros [= <-]. simpl. lia.
  - destruct (loop s) eqn:Hl; try done.
    destruct (out_closed s) eqn:Hc; [|done]. intros [= <-]. simpl.
    rewrite Hc. lia.
Qed.

Lemma run_fuel sched s s' :
  run sched s = Some s' → length sched + fuel s' ≤ fuel s.
Proof.
  revert s. induction sched as [|g sched IH]; intros s; simpl.
  - intros [= <-]. lia.
  - destruct (step g s) as [s1|] eqn:Hstep; [|done]. intros H.
    apply IH in H. apply step_fuel in Hstep. lia.
Qed.

(** Invariants of steps are invariants of runs. *)
Lemma run_invariant (I : MergeState -> Prop) :
  (∀ g s s', I s → step g s = Some s' → I s') →
  ∀ sched s s', I s → run sched s = Some s' → I s'.
Proof.
  intros Hstep sched. induction sched as [|g sched IH]; intros s s' Hs; simpl.
  - by intros [= <-].
  - destruct (step g s) as [s1|] eqn:H1; [|done]. eauto.
Qed.

(** *** The loop returns at the first error it receives *)

Lemma step_loop_inv g s s' : loop_inv s → step g s = Some s' → loop_inv s'.
Proof.
  unfold loop_inv. destruct g as [i| |]; simpl.
  - destruct (outputs s !! i) as [[p c a]|] eqn:Hi; [|done]. simpl.
    destruct a as [|n|]; [| |done].
    + destruct p as [|n rest]; [destruct c; [|done]|];
        intros H [= <-]; simpl; done.
    + destruct (loop s) eqn:Hl; try done.
      destruct (out_closed s) eqn:Hc; [done|]. intros H [= <-]. simpl.
      destruct n as [msg|].
      * by exists (received s).
      * apply Forall_app. split; [done|]. by constructor.
  - destruct (out_closed s) eqn:Hc; [done|].
    destruct (wg s =? 0)%Z; [|done]. intros H [= <-]. simpl.
    destruct (loop s); try done. by destruct H.
  - destruct (loop s) eqn:Hl; try done.
    destruct (out_closed s) eqn:Hc; [|done]. intros H [= <-]. by simpl.
Qed.

Lemma merge_loop_inv cs sched s :
  run sched (merge cs) = Some s → loop_inv s.
Proof.
  apply (run_invariant loop_inv step_loop_inv). unfold loop_inv. simpl.
  constructor.
Qed.

(** *** One error among silent signals *)

Lemma step_one_error_inv msg g s s' :
  one_error_inv msg s → step g s = Some s' → one_error_inv msg s'.
Proof.
  intros [Hos Hwg Hcl Hone Hloop]. destruct g as [i| |]; simpl.
  - destruct (outputs s !! i) as [[p c a]|] eqn:Hi; [|done]. simpl.
    pose proof (Forall_lookup_1 _ _ _ _ Hos Hi) as (Hp & Hn & Hfin).
    simpl in Hp, Hn, Hfin.
    destruct a as [|n|]; [| |done].
    + destruct p as [|n rest].
      * destruct c; [|done]. intros [= <-].
        pose proof (sum_outputs_insert unfinished _ i _
                      {| src_pending := []; src_closes := true;
                         at_ := Finished |} Hi) as Hu.
        pose proof (sum_outputs_insert undelivered _ i _
                      {| src_pending := []; src_closes := true;
                         at_ := Finished |} Hi) as Hd.
        unfold unfinished at 2 4 in Hu. unfold undelivered at 2 4 in Hd.
        simpl in Hu, Hd.
        split; simpl; try done; try lia.
        -- apply Forall_insert; [done|]. by repeat split.
        -- intros Hc. specialize (Hcl Hc). lia.
      * intros [= <-].
        pose proof (sum_outputs_insert unfinished _ i _
                      {| src_pending := rest; src_closes := c;
                         at_ := Sending n |} Hi) as Hu.
        pose proof (sum_outputs_insert undelivered _ i _
                      {| src_pending := rest; src_closes := c;
                         at_ := Sending n |} Hi) as Hd.
        unfold unfinished at 2 4 in Hu. unfold undelivered at 2 4 in Hd.
        simpl in Hu, Hd.
        apply Forall_cons in Hp as [Hn' Hrest].
        split; simpl; try done; try lia.
        -- apply Forall_insert; [done|]. repeat split; simpl; try done.
           by intros ? [= <-].
        -- intros Hc. specialize (Hcl Hc). lia.
    + destruct (loop s) eqn:Hl; try done.
      destruct (out_closed s) eqn:Hc; [done|]. intros [= <-].
      pose proof (sum_outputs_insert unfinished _ i _
                    {| src_pending := p; src_closes := c;
                       at_ := Receiving |} Hi) as Hu.
      pose proof (sum_outputs_insert undelivered _ i _
                    {| src_pending := p; src_closes := c;
                       at_ := Receiving |} Hi) as Hd.
      unfold unfinished at 2 4 in Hu. unfold undelivered at 2 4 in Hd.
      simpl in Hu, Hd.
      rewrite (Hn n eq_refl).
      split; simpl; try done; try lia.
      * apply Forall_insert; [done|]. by repeat split.
      * rewrite Hc. done.
      * rewrite Hloop. simpl. rewrite Hloop in Hone. simpl in Hone. lia.
      * by rewrite Hloop.
  - destruct (out_closed s) eqn:Hc; [done|].
    destruct (wg s =? 0)%Z eqn:Hz; [|done]. intros [= <-].
    apply Z.eqb_eq in Hz.
    split; simpl; try done. intros _. lia.
  - destruct (loop s) eqn:Hl; try done.
    destruct (out_closed s) eqn:Hc; [|done]. intros _. exfalso.
    specialize (Hcl eq_refl).
    assert (Hz : sum_outputs undelivered (outputs s) = 0).
    { apply sum_outputs_zero. apply Forall_lookup_2. intros j o Hj.
      pose proof (sum_outputs_lookup_le unfinished _ _ _ Hj) as Hle.
      pose proof (Forall_lookup_1 _ _ _ _ Hos Hj) as (_ & _ & Hfin).
      rewrite Hcl in Hle. unfold unfinished in Hle. unfold undelivered.
      destruct (at_ o); try lia. by rewrite Hfin. }
    rewrite Hloop in Hone. simpl in Hone. lia.
Qed.

Lemma start_outputs_app (cs1 cs2 : list ErrorSignal) :
  start_outputs (cs1 ++ cs2) = start_outputs cs1 ++ start_outputs cs2.
Proof.
  induction cs1 as [|[|p c] cs1 IH]; simpl; [done | done | by rewrite IH].
Qed.

Lemma start_outputs_unfinished (cs : list ErrorSignal) :
  count_nil cs + sum_outputs unfinished (start_outputs cs) = length cs.
Proof. induction cs as [|[|p c] cs IH]; simpl; lia. Qed.

Lemma silent_outputs msg (cs : list ErrorSignal) :
  Forall silent cs →
  Forall (carries_only msg) (start_outputs cs) ∧
  sum_outputs undelivered (start_outputs cs) = 0.
Proof.
  induction 1 as [|c cs [->| ->] _ [IH1 IH2]]; simpl; [by split | by split |].
  split; [|done]. constructor; [|done]. by repeat split.
Qed.

Lemma merge_one_error_inv msg closes (cs_before cs_after : list ErrorSignal) :
  Forall silent cs_before →
  Forall silent cs_after →
  one_error_inv msg (merge (cs_before ++ chan [Some msg] closes :: cs_after)).
Proof.
  intros [Hb1 Hb2]%(silent_outputs msg) [Ha1 Ha2]%(silent_outputs msg).
  set (cs := cs_before ++ _).
  pose proof (start_outputs_unfinished cs) as Hlen.
  split; simpl; try done.
  - unfold cs. rewrite start_outputs_app. apply Forall_app. split; [done|].
    simpl. constructor; [|done]. repeat split; simpl; try done.
    by repeat constructor.
  - lia.
  - unfold cs. rewrite start_outputs_app, sum_outputs_app. simpl.
    rewrite Hb2, Ha2. unfold undelivered. simpl. lia.
Qed.

Lemma one_error_stuck msg s :
  one_error_inv msg s → stuck s →
  loop s = ReturnedError msg ∧ received s = [Some msg].
Proof.
  intros [Hos Hwg Hcl Hone Hloop] Hstuck.
  destruct (loop s) as [|m|] eqn:Hl; [|by destruct Hloop as [-> ?]|done].
  exfalso. rewrite Hloop in Hone. simpl in Hone.
  destruct (sum_outputs_pos undelivered (outputs s)) as (i & o & Hi & Ho);
    [lia|].
  specialize (Hstuck (Output i)). simpl in Hstuck. rewrite Hi, Hl in Hstuck.
  pose proof (Forall_lookup_1 _ _ _ _ Hos Hi) as (_ & _ & Hfin).
  pose proof (sum_outputs_lookup_le unfinished _ _ _ Hi) as Hle.
  unfold undelivered in Ho. unfold unfinished at 1 in Hle.
  destruct (at_ o) eqn:Ha.
  - destruct (src_pending o); [simpl in Ho; lia | done].
  - destruct (out_closed s); [|done]. rewrite Hcl in Hle by done. lia.
  - rewrite Hfin in Ho by done. simpl in Ho. lia.
Qed.

(** C4: when one signal sends the error [msg] and every other signal is
    silent, then, wherever that signal stands among the arguments of
    [merge] and however the goroutines are scheduled: the loop has received
    nothing and is waiting, or it has received [msg] alone and has returned
    it; the run is finite; and once no goroutine can move the loop has
    returned [msg], which [daemonFunc] reports as its error.  In every run of every [merge], the loop returns an
    error only on the first non-nil value it receives and ends cleanly only
    when [out] is closed and no error was received; and once [out] is
    closed with the loop waiting, the loop ends cleanly and [daemonFunc]
    returns without reporting an error. *)
Theorem supervising_loop_first_error
    (cs_before cs_after : list ErrorSignal) msg closes :
  Forall silent cs_before →
  Forall silent cs_after →
  (∀ sched s,
     run sched (merge (cs_before ++ chan [Some msg] closes :: cs_after))
     = Some s →
     (loop s = Ranging ∧ received s = [] ∨
      loop s = ReturnedError msg ∧ received s = [Some msg]) ∧
     length sched
     ≤ fuel (merge (cs_before ++ chan [Some msg] closes :: cs_after)) ∧
     (stuck s → loop s = ReturnedError msg ∧ received s = [Some msg])) ∧
  (∀ node w,
     ∃ w', daemonFunc_supervised node (ReturnedError msg) w = Some w' ∧
           res_error w' = Some msg) ∧
  (∀ cs' sched s, run sched (merge cs') = Some s → loop_inv s) ∧
  (∀ s node w,
     out_closed s = true → loop s = Ranging →
     step Supervisor s = Some (set_loop ReturnedClean s) ∧
     daemonFunc_supervised node ReturnedClean w = Some (node_Close node w) ∧
     res_error (node_Close node w) = res_error w).
Proof.
  intros Hb Ha. split; [|split; [|split]].
  - intros sched s Hrun.
    assert (Hinv : one_error_inv msg s).
    { revert Hrun. apply (run_invariant _ (step_one_error_inv msg)).
      by apply merge_one_error_inv. }
    split; [|split].
    + destruct Hinv as [_ _ _ _ Hloop].
      destruct (loop s) as [|m|]; [by left | right | done].
      by destruct Hloop as [-> ?].
    + apply run_fuel in Hrun. lia.
    + by apply one_error_stuck.
  - intros node w. eexists. split; [reflexivity|].
    unfold node_Close. by destruct (node_repo node).
  - intros cs' sched s. apply merge_loop_inv.
  - intros s node w Hc Hl. simpl. rewrite Hl, Hc. repeat split.
    unfold node_Close. by destruct (node_repo node).
Qed.

Lemma supervising_loop_first_error_witness :
  Forall silent [chan [] true] ∧
  Forall silent [nil_chan] ∧
  ∀ sched s,
    run sched
      (merge [chan [] true; chan [Some "serve failed"] false; nil_chan])
    = Some s →
    (loop s = Ranging ∧ received s = [] ∨
     loop s = ReturnedError "serve failed" ∧
     received s = [Some "serve failed"]) ∧
    length sched ≤ 6 ∧
    (stuck s → loop s = ReturnedError "serve failed" ∧
               received s = [Some "serve failed"]).
Proof.
  assert (H1 : Forall silent [chan [] true]).
  { apply Forall_cons. split; [by right | apply Forall_nil_2]. }
  assert (H2 : Forall silent [nil_chan]).
  { apply Forall_cons. split; [by left | apply Forall_nil_2]. }
  split; [exact H1|]. split; [exact H2|].
  exact (proj1 (supervising_loop_first_error [chan [] true] [nil_chan]
                  "serve failed" false H1 H2)).
Defined.

(** The same three signals in two orders and under two schedules: the loop
    returns the error. *)
Example supervising_loop_runs :
  (loop <$> run [Output 1; Output 0; Output 1]
              (merge [chan [] true; chan [Some "serve failed"] false; nil_chan]))
  = Some (ReturnedError "serve failed") ∧
  (loop <$> run [Output 0; Output 0; Output 1]
              (merge [chan [Some "serve failed"] false; nil_chan; chan [] true]))
  = Some (ReturnedError "serve failed").
Proof. split; reflexivity. Qed.

(** Signals that are all closed, one after a nil error: the loop ends
    cleanly. *)
Example supervising_loop_clean_exit :
  (loop <$> run [Output 0; Output 1; Output 1; Output 1; Closer; Supervisor]
              (merge [chan [] true; chan [None] true]))
  = Some ReturnedClean.
Proof. reflexivity. Qed.

(** *** Signals that are nil or never closed *)

Lemma step_wait_inv n b g s s' :
  1 ≤ n + b → wait_inv n b s → step g s = Some s' → wait_inv n b s'.
Proof.
  intros Hnb [Hfin Hwg Hun Hopen Hloop]. destruct g as [i| |]; simpl.
  - destruct (outputs s !! i) as [[p c a]|] eqn:Hi; [|done]. simpl.
    destruct a as [|v|]; [| |done].
    + destruct p as [|v rest]; [destruct c; [|done]|]; intros [= <-].
      * pose proof (sum_outputs_insert unfinished _ i _
                      {| src_pending := []; src_closes := true;
                         at_ := Finished |} Hi) as Hu.
        pose proof (sum_outputs_insert unclosed _ i _
                      {| src_pending := []; src_closes := true;
                         at_ := Finished |} Hi) as Hc.
        unfold unfinished at 2 4 in Hu. unfold unclosed at 2 4 in Hc.
        simpl in Hu, Hc.
        split; simpl; try done; try lia. by apply Forall_insert.
      * pose proof (sum_outputs_insert unfinished _ i _
                      {| src_pending := rest; src_closes := c;
                         at_ := Sending v |} Hi) as Hu.
        pose proof (sum_outputs_insert unclosed _ i _
                      {| src_pending := rest; src_closes := c;
                         at_ := Sending v |} Hi) as Hc.
        unfold unfinished at 2 4 in Hu. unfold unclosed at 2 4 in Hc.
        simpl in Hu, Hc.
        split; simpl; try done; try lia. by apply Forall_insert.
    + destruct (loop s) eqn:Hl; try done.
      rewrite Hopen. intros [= <-].
      pose proof (sum_outputs_insert unfinished _ i _
                    {| src_pending := p; src_closes := c;
                       at_ := Receiving |} Hi) as Hu.
      pose proof (sum_outputs_insert unclosed _ i _
                    {| src_pending := p; src_closes := c;
                       at_ := Receiving |} Hi) as Hc.
      unfold unfinished at 2 4 in Hu. unfold unclosed at 2 4 in Hc.
      simpl in Hu, Hc.
      split; simpl; try done; try lia.
      * by apply Forall_insert.
      * by destruct v.
  - rewrite Hopen. destruct (wg s =? 0)%Z eqn:Hz; [|done]. intros _.
    exfalso. apply Z.eqb_eq in Hz.
    destruct (sum_outputs_pos unclosed (outputs s)) as (i & o & Hi & Ho);
      [lia|].
    pose proof (Forall_lookup_1 _ _ _ _ Hfin Hi) as Hf. simpl in Hf.
    pose proof (sum_outputs_lookup_le unfinished _ _ _ Hi) as Hle.
    unfold unclosed in Ho. unfold unfinished at 1 in Hle.
    destruct (at_ o); try lia. rewrite Hf in Ho by done. lia.
  - destruct (loop s); try done. by rewrite Hopen.
Qed.

Lemma start_outputs_Receiving (cs : list ErrorSignal) :
  Forall (fun o => at_ o = Receiving) (start_outputs cs).
Proof. induction cs as [|[|p c] cs IH]; simpl; by repeat constructor. Qed.

Lemma merge_wait_inv (cs : list ErrorSignal) :
  wait_inv (count_nil cs) (sum_outputs unclosed (start_outputs cs)) (merge cs).
Proof.
  pose proof (start_outputs_unfinished cs) as Hlen.
  split; simpl; try done; try lia.
  eapply Forall_impl; [apply start_outputs_Receiving|].
  intros o Ho. by rewrite Ho.
Qed.

Lemma never_closed_counted (cs : list ErrorSignal) :
  Exists never_closed cs →
  1 ≤ count_nil cs + sum_outputs unclosed (start_outputs cs).
Proof.
  induction 1 as [c cs [->|[vs ->]]|[|p c] cs _ IH]; simpl; lia.
Qed.

(** With one signal nil or never closed, [out] is never closed and the
    loop never ends cleanly. *)
Lemma merge_never_closes (cs : list ErrorSignal) sched s :
  Exists never_closed cs →
  run sched (merge cs) = Some s →
  out_closed s = false ∧ loop s ≠ ReturnedClean.
Proof.
  intros Hex%never_closed_counted Hrun.
  pose proof (run_invariant _
                (fun g s s' => step_wait_inv _ _ g s s' Hex)
                sched _ _ (merge_wait_inv cs) Hrun) as [_ _ _ Ho Hl].
  done.
Qed.

(** C2, on the code: for a list of nil signals that is not empty, [merge]
    starts no [output] goroutine and yet sets the wait group to the length
    of the list; no goroutine can ever move, [out] stays open and the loop
    stays blocked on it. *)
Theorem merge_of_nil_signals_never_closes (cs : list ErrorSignal) :
  cs ≠ [] →
  Forall (fun c => c = nil_chan) cs →
  outputs (merge cs) = [] ∧
  wg (merge cs) = Z.of_nat (length cs) ∧
  stuck (merge cs) ∧
  ∀ sched s, run sched (merge cs) = Some s →
             sched = [] ∧ out_closed s = false ∧ loop s = Ranging.
Proof.
  intros Hne Hnil.
  assert (Hout : start_outputs cs = []).
  { induction Hnil as [|c cs -> _ IH]; simpl; [done|].
    destruct cs; [done|]. by apply IH. }
  assert (Hstuck : stuck (merge cs)).
  { intros [i| |]; simpl.
    - by rewrite Hout.
    - destruct cs; [done|]. done.
    - done. }
  split; [done|]. split; [done|]. split; [done|].
  intros sched s Hrun. destruct sched as [|g sched]; simpl in Hrun.
  - by injection Hrun as <-.
  - by rewrite Hstuck in Hrun.
Qed.

Lemma merge_of_nil_signals_never_closes_witness :
  outputs (merge [nil_chan; nil_chan]) = [] ∧
  wg (merge [nil_chan; nil_chan]) = 2%Z ∧
  stuck (merge [nil_chan; nil_chan]) ∧
  ∀ sched s, run sched (merge [nil_chan; nil_chan]) = Some s →
             sched = [] ∧ out_closed s = false ∧ loop s = Ranging.
Proof.
  apply (merge_of_nil_signals_never_closes [nil_chan; nil_chan]).
  - discriminate.
  - by repeat constructor.
Defined.

(** Without arguments [merge] does close [out] at once. *)
Example merge_of_nothing_closes :
  run [Closer; Supervisor] (merge [])
  = Some {| outputs := []; wg := 0; out_closed := true;
            loop := ReturnedClean; received := [] |}.
Proof. reflexivity. Qed.

(** *** The signals the daemon merges *)

Lemma launch_services_signals E req cfg node w cs w' :
  launch_services E req cfg node w = (Ok cs, w') →
  ∃ gwErrc,
    cs = [make_chan (launcher_goroutine (corehttp_Serve E API)); gwErrc].
Proof.
  unfold launch_services.
  unfold mbind, mret, M_bind, M_ret, bind, ret, orSetError, check.
  destruct (mountHTTPapi E req (set_ConstructNode (Ok node) w))
    as [[c|e] w1] eqn:Hapi; [|done].
  apply mountHTTPapi_Ok in Hapi
    as (? & ? & ? & ? & ? & ? & ? & _ & _ & _ & _ & _ & -> & _).
  intros H. repeat case_match; simplify_eq; eauto.
Qed.

Lemma daemonFunc_bootstrap_signals E req w node cs w' :
  daemonFunc_bootstrap E req w = (Ok (node, cs), w') →
  ∃ gwErrc,
    cs = [make_chan (launcher_goroutine (corehttp_Serve E API)); gwErrc].
Proof.
  unfold daemonFunc_bootstrap.
  unfold mbind, mret, M_bind, M_ret, bind, ret, orSetError, on_error, Printf.
  intros H. repeat case_match; simplify_eq.
  eapply launch_services_signals; eauto.
Qed.

(** X12.  The API's signal is never closed, so the daemon's merged signal
    never is: the loop of [daemonFunc] ends on an error or not at all. *)
Lemma daemonFunc_never_ends_cleanly E req w node cs w' sched s :
  daemonFunc_bootstrap E req w = (Ok (node, cs), w') →
  run sched (merge cs) = Some s →
  out_closed s = false ∧ loop s ≠ ReturnedClean.
Proof.
  intros [gw ->]%daemonFunc_bootstrap_signals.
  apply merge_never_closes. apply Exists_cons_hd. right.
  destruct (corehttp_Serve E API); simpl; eauto.
Qed.

(** ** [merge] on arbitrary signals *)

Lemma all_in_flight_insert (os : list output_goroutine) i o o' :
  os !! i = Some o →
  ∃ l1 l2, all_in_flight os = l1 ++ in_flight o ++ l2 ∧
           all_in_flight (<[i := o']> os) = l1 ++ in_flight o' ++ l2.
Proof.
  revert i. induction os as [|x os IH]; intros [|i]; simpl; try done.
  - intros [= ->]. by exists [], (all_in_flight os).
  - intros H. destruct (IH i H) as (l1 & l2 & H1 & H2).
    exists (in_flight x ++ l1), l2. rewrite H1, H2.
    by rewrite <- !app_assoc.
Qed.

Lemma all_in_flight_start (cs : list ErrorSignal) :
  all_in_flight (start_outputs cs) = signal_values cs.
Proof.
  induction cs as [|[|p c] cs IH]; simpl; try done.
  unfold in_flight. simpl. by rewrite IH.
Qed.

Lemma start_outputs_length (cs : list ErrorSignal) :
  length (start_outputs cs) + count_nil cs = length cs.
Proof. induction cs as [|[|p c] cs IH]; simpl; lia. Qed.

Lemma merge_merge_inv (cs : list ErrorSignal) : merge_inv cs (merge cs).
Proof.
  pose proof (start_outputs_unfinished cs) as Hlen.
  split; simpl; try done; try lia.
  - eapply Forall_impl; [apply start_outputs_Receiving|].
    intros o Ho. by rewrite Ho.
  - by rewrite all_in_flight_start.
  - apply start_outputs_length.
Qed.

Lemma step_merge_inv cs g s s' :
  merge_inv cs s → step g s = Some s' → merge_inv cs s'.
Proof.
  intros [Hwg Hcl Hfin Hval Hlen]. destruct g as [i| |]; simpl.
  - destruct (outputs s !! i) as [[p c a]|] eqn:Hi; [|done]. simpl.
    destruct a as [|v|]; [| |done].
    + destruct p as [|v rest]; [destruct c; [|done]|]; intros [= <-].
      * pose proof (sum_outputs_insert unfinished _ i _
                      {| src_pending := []; src_closes := true;
                         at_ := Finished |} Hi) as Hu.
        destruct (all_in_flight_insert _ i _
                    {| src_pending := []; src_closes := true;
                       at_ := Finished |} Hi) as (l1 & l2 & Hf1 & Hf2).
        unfold unfinished at 2 4 in Hu. simpl in Hu.
        split; simpl; try lia.
        -- intros Hc. specialize (Hcl Hc). lia.
        -- by apply Forall_insert.
        -- by rewrite Hf2, <- Hval, Hf1.
        -- by rewrite length_insert.
      * pose proof (sum_outputs_insert unfinished _ i _
                      {| src_pending := rest; src_closes := c;
                         at_ := Sending v |} Hi) as Hu.
        destruct (all_in_flight_insert _ i _
                    {| src_pending := rest; src_closes := c;
                       at_ := Sending v |} Hi) as (l1 & l2 & Hf1 & Hf2).
        unfold unfinished at 2 4 in Hu. simpl in Hu.
        split; simpl; try lia.
        -- intros Hc. specialize (Hcl Hc). lia.
        -- by apply Forall_insert.
        -- by rewrite Hf2, <- Hval, Hf1.
        -- by rewrite length_insert.
    + destruct (loop s) eqn:Hl; try done.
      destruct (out_closed s) eqn:Hc; [done|]. intros [= <-].
      pose proof (sum_outputs_insert unfinished _ i _
                    {| src_pending := p; src_closes := c;
                       at_ := Receiving |} Hi) as Hu.
      destruct (all_in_flight_insert _ i _
                  {| src_pending := p; src_closes := c;
                     at_ := Receiving |} Hi) as (l1 & l2 & Hf1 & Hf2).
      unfold unfinished at 2 4 in Hu. simpl in Hu.
      split; simpl; try lia.
      * by rewrite Hc.
      * by apply Forall_insert.
      * rewrite Hf2, <- Hval, Hf1. unfold in_flight. simpl.
        rewrite <- !app_assoc. apply Permutation_app_head.
        simpl. apply Permutation_middle.
      * by rewrite length_insert.
  - destruct (out_closed s) eqn:Hc; [done|].
    destruct (wg s =? 0)%Z eqn:Hz; [|done]. intros [= <-].
    apply Z.eqb_eq in Hz.
    split; simpl; try done. intros _. lia.
  - destruct (loop s) eqn:Hl; try done.
    destruct (out_closed s) eqn:Hc; [|done]. intros [= <-].
    split; simpl; try done. by rewrite Hc.
Qed.

Lemma run_merge_inv cs sched s :
  run sched (merge cs) = Some s → merge_inv cs s.
Proof.
  apply (run_invariant _ (step_merge_inv cs)). apply merge_merge_inv.
Qed.

Lemma sum_outputs_unfinished_le (os : list output_goroutine) :
  sum_outputs unfinished os ≤ length os.
Proof.
  induction os as [|o os IH]; simpl; [done|].
  unfold unfinished at 1. destruct (at_ o); lia.
Qed.

Lemma all_finished (os : list output_goroutine) o :
  sum_outputs unfinished os = 0 → o ∈ os → at_ o = Finished.
Proof.
  intros Hz [i Hi]%list_elem_of_lookup.
  pose proof (sum_outputs_lookup_le unfinished _ _ _ Hi) as Hle.
  unfold unfinished at 1 in Hle. destruct (at_ o); [lia | lia | done].
Qed.

Lemma all_in_flight_nil (os : list output_goroutine) :
  Forall (fun o => in_flight o = []) os → all_in_flight os = [].
Proof. induction 1 as [|o os Ho _ IH]; simpl; [done | by rewrite Ho, IH]. Qed.

(** X1.  In every run of [merge], whatever the signals: the wait group's
    counter is the number of nil signals plus the number of [output]
    goroutines that have not called [wg.Done()], so it never falls below
    zero; and [out] is closed only when the counter is zero, every [output]
    goroutine has finished and its channel is drained, so nothing is ever
    sent on the closed [out]. *)
Theorem merge_wait_group_discipline (cs : list ErrorSignal) sched s :
  run sched (merge cs) = Some s →
  wg s = (Z.of_nat (count_nil cs)
          + Z.of_nat (sum_outputs unfinished (outputs s)))%Z ∧
  (0 ≤ wg s ≤ Z.of_nat (length cs))%Z ∧
  (out_closed s = true →
   wg s = 0%Z ∧
   ∀ o, o ∈ outputs s → at_ o = Finished ∧ src_pending o = []).
Proof.
  intros [Hwg Hcl Hfin Hval Hlen]%run_merge_inv.
  pose proof (sum_outputs_unfinished_le (outputs s)) as Hle.
  split; [done|]. split; [lia|].
  intros Hc. destruct (Hcl Hc) as [Hn Hu]. split; [lia|].
  intros o Ho. pose proof (all_finished _ _ Hu Ho) as Hf. split; [done|].
  rewrite Forall_forall in Hfin. by destruct (Hfin o Ho Hf).
Qed.

Lemma merge_wait_group_discipline_witness :
  wg {| outputs := [{| src_pending := []; src_closes := true;
                       at_ := Finished |};
                    {| src_pending := []; src_closes := false;
                       at_ := Sending None |}];
        wg := 2; out_closed := false; loop := Ranging; received := [] |}
  = (Z.of_nat 1 + Z.of_nat 1)%Z ∧
  (0 ≤ 2 ≤ Z.of_nat 3)%Z ∧
  (false = true →
   2%Z = 0%Z ∧
   ∀ o, o ∈ [{| src_pending := []; src_closes := true; at_ := Finished |};
             {| src_pending := []; src_closes := false;
                at_ := Sending None |}] →
        at_ o = Finished ∧ src_pending o = []).
Proof.
  apply (merge_wait_group_discipline
           [chan [] true; nil_chan; chan [None] false]
           [Output 1; Output 0]).
  reflexivity.
Defined.

(** X2.  In every run of [merge], the values the loop has received together
    with the values still on their way are, up to order, the values the
    producers send: [merge] loses no value, repeats none and invents
    none. *)
Theorem merge_hands_over_what_is_sent (cs : list ErrorSignal) sched s :
  run sched (merge cs) = Some s →
  received s ++ all_in_flight (outputs s) ≡ₚ signal_values cs ∧
  (∀ e, e ∈ received s → e ∈ signal_values cs) ∧
  length (received s) ≤ length (signal_values cs).
Proof.
  intros [_ _ _ Hval _]%run_merge_inv. split; [done|]. split.
  - intros e He. rewrite <- Hval. apply elem_of_app. by left.
  - rewrite <- Hval, length_app. lia.
Qed.

Lemma merge_hands_over_what_is_sent_witness :
  ([None; None] : list error)
  ++ all_in_flight
       [{| src_pending := []; src_closes := true; at_ := Receiving |};
        {| src_pending := [Some "late"]; src_closes := true;
           at_ := Receiving |}]
  ≡ₚ signal_values [chan [None] true; chan [None; Some "late"] true] ∧
  (∀ e, e ∈ ([None; None] : list error) →
        e ∈ signal_values [chan [None] true; chan [None; Some "late"] true]) ∧
  length ([None; None] : list error)
  ≤ length (signal_values [chan [None] true; chan [None; Some "late"] true]).
Proof.
  apply (merge_hands_over_what_is_sent
           [chan [None] true; chan [None; Some "late"] true]
           [Output 1; Output 0; Output 1; Output 0]
           {| outputs := [{| src_pending := []; src_closes := true;
                             at_ := Receiving |};
                          {| src_pending := [Some "late"]; src_closes := true;
                             at_ := Receiving |}];
              wg := 2; out_closed := false; loop := Ranging;
              received := [None; None] |}).
  reflexivity.
Defined.

Lemma step_closes g s s' :
  Forall (fun o => src_closes o = true) (outputs s) →
  step g s = Some s' →
  Forall (fun o => src_closes o = true) (outputs s').
Proof.
  intros Hall. destruct g as [i| |]; simpl.
  - destruct (outputs s !! i) as [[p c a]|] eqn:Hi; [|done]. simpl.
    pose proof (Forall_lookup_1 _ _ _ _ Hall Hi) as Hc. simpl in Hc.
    destruct a as [|v|]; [| |done].
    + destruct p as [|v rest]; [destruct c; [|done]|]; intros [= <-];
        simpl; by apply Forall_insert.
    + destruct (loop s); try done. destruct (out_closed s); [done|].
      intros [= <-]. simpl. by apply Forall_insert.
  - destruct (out_closed s); [done|]. destruct (wg s =? 0)%Z; [|done].
    by intros [= <-].
  - destruct (loop s); try done. destruct (out_closed s); [|done].
    by intros [= <-].
Qed.

Lemma closing_start_outputs (cs : list ErrorSignal) :
  Forall closing cs →
  count_nil cs = 0 ∧
  Forall (fun o => src_closes o = true) (start_outputs cs).
Proof.
  induction 1 as [|c cs [vs ->] _ [IH1 IH2]]; simpl; [done|].
  split; [done|]. by constructor.
Qed.

(** While the loop is ranging over channels that all get closed, some
    goroutine can move. *)
Lemma closing_progress cs s :
  count_nil cs = 0 →
  merge_inv cs s →
  Forall (fun o => src_closes o = true) (outputs s) →
  loop s = Ranging →
  ∃ g, step g s ≠ None.
Proof.
  intros Hnil [Hwg Hcl Hfin Hval Hlen] Hall Hl.
  destruct (sum_outputs unfinished (outputs s)) as [|k] eqn:Hu.
  - destruct (out_closed s) eqn:Hc.
    + exists Supervisor. simpl. by rewrite Hl, Hc.
    + exists Closer. simpl. rewrite Hc.
      replace (wg s) with 0%Z by lia. done.
  - destruct (sum_outputs_pos unfinished (outputs s)) as (i & o & Hi & Ho);
      [lia|].
    exists (Output i). simpl. rewrite Hi, Hl.
    pose proof (Forall_lookup_1 _ _ _ _ Hall Hi) as Hclose. simpl in Hclose.
    unfold unfinished in Ho. destruct (at_ o); [| |lia].
    + destruct (src_pending o); [by rewrite Hclose | done].
    + destruct (out_closed s); [|done]. destruct Hcl; [done|]. lia.
Qed.

(** X3.  When every signal is a channel that its producer closes, then
    however the goroutines are scheduled the run is finite, and once no
    goroutine can move the loop is over: either it ended cleanly, [out] is
    closed, every value sent was nil and the loop received them all; or it
    returned the first non-nil error it received, which one of the
    producers sent. *)
Theorem merge_of_closing_signals_completes (cs : list ErrorSignal) sched s :
  Forall closing cs →
  run sched (merge cs) = Some s →
  length sched ≤ fuel (merge cs) ∧
  (stuck s →
   (loop s = ReturnedClean ∧ out_closed s = true ∧
    received s ≡ₚ signal_values cs ∧
    Forall (fun e => e = None) (signal_values cs)) ∨
   (∃ msg nils,
      loop s = ReturnedError msg ∧ received s = nils ++ [Some msg] ∧
      Forall (fun e => e = None) nils ∧ Some msg ∈ signal_values cs)).
Proof.
  intros [Hnil Hstart]%closing_start_outputs Hrun.
  split; [apply run_fuel in Hrun; lia|]. intros Hstuck.
  pose proof (run_merge_inv _ _ _ Hrun) as Hinv.
  pose proof (merge_loop_inv _ _ _ Hrun) as Hloop.
  assert (Hall : Forall (fun o => src_closes o = true) (outputs s)).
  { revert Hrun. by apply (run_invariant _ step_closes). }
  unfold loop_inv in Hloop.
  destruct (loop s) as [|msg|] eqn:Hl.
  - destruct (closing_progress cs s Hnil Hinv Hall Hl) as [g Hg].
    by destruct (Hg (Hstuck g)).
  - right. destruct Hloop as (nils & Hrec & Hnils). exists msg, nils.
    split_and!; try done.
    destruct Hinv as [_ _ _ Hval _]. rewrite <- Hval, Hrec.
    apply elem_of_app. left. apply elem_of_app. right. by left.
  - left. destruct Hloop as [Hnone Hc].
    destruct Hinv as [_ Hcl Hfin Hval _]. destruct (Hcl Hc) as [_ Hu].
    assert (Hempty : all_in_flight (outputs s) = []).
    { apply all_in_flight_nil. apply Forall_forall. intros o Ho.
      pose proof (all_finished _ _ Hu Ho) as Hf.
      rewrite Forall_forall in Hfin. destruct (Hfin o Ho Hf) as [Hp _].
      unfold in_flight. by rewrite Hf, Hp. }
    rewrite Hempty, app_nil_r in Hval.
    split_and!; try done. by rewrite <- Hval.
Qed.

Lemma merge_of_closing_signals_completes_witness :
  Forall closing [chan [] true; chan [None] true] ∧
  length [Output 0; Output 1; Output 1; Output 1; Closer; Supervisor]
  ≤ fuel (merge [chan [] true; chan [None] true]) ∧
  (stuck {| outputs := [{| src_pending := []; src_closes := true;
                           at_ := Finished |};
                        {| src_pending := []; src_closes := true;
                           at_ := Finished |}];
            wg := 0; out_closed := true; loop := ReturnedClean;
            received := [None] |} →
   (ReturnedClean = ReturnedClean ∧ true = true ∧
    [None] ≡ₚ signal_values [chan [] true; chan [None] true] ∧
    Forall (fun e => e = None)
      (signal_values [chan [] true; chan [None] true])) ∨
   (∃ msg nils,
      ReturnedClean = ReturnedError msg ∧ [None] = nils ++ [Some msg] ∧
      Forall (fun e => e = None) nils ∧
      Some msg ∈ signal_values [chan [] true; chan [None] true])).
Proof.
  assert (H : Forall closing [chan [] true; chan [None] true]).
  { apply Forall_cons. split; [by eexists|].
    apply Forall_cons. split; [by eexists | apply Forall_nil_2]. }
  split; [exact H|].
  exact (merge_of_closing_signals_completes
           [chan [] true; chan [None] true]
           [Output 0; Output 1; Output 1; Output 1; Closer; Supervisor]
           {| outputs := [{| src_pending := []; src_closes := true;
                             at_ := Finished |};
                          {| src_pending := []; src_closes := true;
                             at_ := Finished |}];
              wg := 0; out_closed := true; loop := ReturnedClean;
              received := [None] |} H eq_refl).
Defined.

(** ** More frame rules *)

#[global] Instance same_services_preorder : PreOrder same_services.
Proof.
  split.
  - by intros w.
  - intros w1 w2 w3 (H1 & H2 & H3) (H4 & H5 & H6).
    unfold same_services. by rewrite H4, H5, H6.
Qed.

#[global] Instance same_ownership_preorder : PreOrder same_ownership.
Proof.
  split.
  - by intros w.
  - intros w1 w2 w3 (H1 & H2 & H3) (H4 & H5 & H6).
    unfold same_ownership. by rewrite H4, H5, H6.
Qed.

(** Closes the leaves [frame] stops at, for a relation that compares
    fields. *)
Ltac frame_fields :=
  try (let w := fresh "w" in intros w ? ?; unfold try, check; intros);
  repeat case_match; simplify_eq;
  unfold same_services, same_ownership; simpl; by split_and!.

Lemma initialize_if_absent_same_services E req initialize :
  preserves same_services (initialize_if_absent E req initialize).
Proof.
  unfold initialize_if_absent, FileExists, call_initWithDefaults.
  frame; frame_fields.
Qed.

Lemma fsrepo_Open_same_services root :
  preserves same_services (fsrepo_Open root).
Proof. unfold fsrepo_Open. frame_fields. Qed.

Lemma select_routing_same_services E req repo nb :
  preserves same_services (select_routing E req repo nb).
Proof. unfold select_routing. frame; frame_fields. Qed.

Lemma mountHTTPapi_same_ownership E req :
  preserves same_ownership (mountHTTPapi E req).
Proof.
  unfold mountHTTPapi, Printf, manet_listen, go_Serve, call_ConstructNode.
  frame; frame_fields.
Qed.

Lemma mountHTTPgw_same_ownership E req :
  preserves same_ownership (mountHTTPgw E req).
Proof.
  unfold mountHTTPgw, Printf, manet_listen, go_Serve, call_ConstructNode.
  frame; frame_fields.
Qed.

Lemma mountFuse_same_ownership E req :
  preserves same_ownership (mountFuse E req).
Proof.
  unfold mountFuse, Printf, call_ConstructNode. frame; frame_fields.
Qed.

(** ** What [daemonFunc] reports *)

Lemma reports_mret {A} (a : A) : reports (mret a : M A).
Proof. by intros w msg w'. Qed.

Lemma reports_mbind {A B} (m : M A) (k : A -> M B) :
  reports m → (∀ a, reports (k a)) → reports (m ≫= k).
Proof.
  intros Hm Hk w msg w'. unfold mbind, M_bind, bind.
  destruct (m w) as [[a|e] w1] eqn:Hmw; intros H.
  - by eapply Hk.
  - injection H as <- <-. by eapply Hm.
Qed.

Lemma reports_orSetError {A} (m : M A) : reports (orSetError m).
Proof.
  intros w msg w'. unfold orSetError.
  by destruct (m w) as [[a|e] w1]; intros [= <- <-].
Qed.

Lemma reports_on_error {A} cleanup (m : M A) :
  (∀ w, res_error (cleanup w) = res_error w) →
  reports m → reports (on_error cleanup m).
Proof.
  intros Hc Hm w msg w'. unfold on_error.
  destruct (m w) as [[a|e] w1] eqn:Hmw; intros [= <- <-].
  rewrite Hc. by eapply Hm.
Qed.

Lemma reports_never_fails {A} (m : M A) :
  (∀ w, ∃ a w', m w = (Ok a, w')) → reports m.
Proof. intros Hm w msg w' H. destruct (Hm w) as (a & w1 & Ha). congruence. Qed.

Lemma silent_mret {A} (a : A) : silent_on_success (mret a : M A).
Proof. by intros w b w' [= <- <-]. Qed.

Lemma silent_mbind {A B} (m : M A) (k : A -> M B) :
  silent_on_success m → (∀ a, silent_on_success (k a)) →
  silent_on_success (m ≫= k).
Proof.
  intros Hm Hk w b w'. unfold mbind, M_bind, bind.
  destruct (m w) as [[a|e] w1] eqn:Hmw; [|done]. intros H.
  rewrite (Hk _ _ _ _ H). by eapply Hm.
Qed.

Lemma silent_orSetError {A} (m : M A) :
  silent_on_success m → silent_on_success (orSetError m).
Proof.
  intros Hm w b w'. unfold orSetError.
  destruct (m w) as [[a|e] w1] eqn:Hmw; intros [= <- <-]. by eapply Hm.
Qed.

Lemma silent_on_error {A} cleanup (m : M A) :
  silent_on_success m → silent_on_success (on_error cleanup m).
Proof.
  intros Hm w b w'. unfold on_error.
  destruct (m w) as [[a|e] w1] eqn:Hmw; intros [= <- <-]. by eapply Hm.
Qed.

(** Walks through monadic code for [reports]. *)
Ltac reporting :=
  repeat first
    [ apply reports_mret
    | apply reports_orSetError
    | apply reports_mbind; [|intros ?]
    | apply reports_on_error; [intros ?|]
    | case_match ].

(** Walks through monadic code for [silent_on_success]. *)
Ltac silencing :=
  repeat first
    [ apply silent_mret
    | apply silent_orSetError
    | apply silent_on_error
    | apply silent_mbind; [|intros ?]
    | case_match ].

(** A leaf that leaves [res_error] alone. *)
Ltac silent_leaf :=
  let w := fresh "w" in
  intros w ? ?; unfold try, check; intros;
  repeat case_match; simplify_eq; done.

(** X4.  [daemonFunc] sets an error on the response exactly when it returns
    before the loop: every early return carries the error it has set, and
    a bootstrap that reaches [merge] has set none. *)
Theorem daemonFunc_reports_every_early_return E req w :
  (∀ msg w', daemonFunc_bootstrap E req w = (Err msg, w') →
             res_error w' = Some msg) ∧
  (∀ node cs w', daemonFunc_bootstrap E req w = (Ok (node, cs), w') →
                 res_error w' = res_error w).
Proof.
  split.
  - intros msg w'. revert w msg w'.
    change (reports (daemonFunc_bootstrap E req)).
    unfold daemonFunc_bootstrap, initialize_if_absent, select_routing,
      launch_services.
    reporting; try (apply reports_never_fails; intros w; by eexists _, _).
    + done.
    + unfold node_Close. by case_match.
  - intros node cs w'. generalize (node, cs). revert w w'.
    intros w w' a. revert w a w'.
    change (silent_on_success (daemonFunc_bootstrap E req)).
    unfold daemonFunc_bootstrap, initialize_if_absent, select_routing,
      launch_services.
    silencing;
      unfold Printf, FileExists, call_initWithDefaults, fsrepo_Open, Build,
        manet_listen, go_Serve, call_ConstructNode;
      silent_leaf.
Qed.

(** ** The stages of the bootstrap *)

Lemma initialize_if_absent_same_ownership E req initialize :
  preserves same_ownership (initialize_if_absent E req initialize).
Proof.
  unfold initialize_if_absent, FileExists, call_initWithDefaults.
  frame; frame_fields.
Qed.

Lemma fsrepo_Open_Ok root w repo w' :
  fsrepo_Open root w = (Ok repo, w') →
  fsrepo_path repo = root ∧ (root ∉ locks w) ∧
  w' = set_locks (fun ls => {[root]} ∪ ls) w.
Proof.
  unfold fsrepo_Open. intros H.
  destruct (bool_decide (root ∈ locks w)) eqn:Hl; [done|].
  apply bool_decide_eq_false_1 in Hl.
  repeat case_match; by simplify_eq.
Qed.

Lemma fsrepo_Open_stored root w repo w' :
  fsrepo_Open root w = (Ok repo, w') →
  ∃ stored, repos w !! root = Some stored ∧ repo_corrupt stored = false ∧
            fsrepo_Config repo = repo_config stored.
Proof.
  unfold fsrepo_Open. intros H.
  destruct (bool_decide (root ∈ locks w)); [done|].
  destruct (repos w !! root) as [stored|]; [|done].
  destruct (repo_corrupt stored) eqn:Hc; [done|].
  exists stored. by simplify_eq.
Qed.

Lemma fsrepo_Open_Err root w msg w' :
  fsrepo_Open root w = (Err msg, w') → w' = w.
Proof. unfold fsrepo_Open. intros H. repeat case_match; by simplify_eq. Qed.

Lemma select_routing_Ok E req repo nb w nb' w' :
  select_routing E req repo nb w = (Ok nb', w') →
  nb_online nb' = nb_online nb ∧ nb_repo nb' = nb_repo nb ∧ w' = w.
Proof.
  unfold select_routing. unfold_M. intros H.
  repeat case_match; by simplify_eq.
Qed.

Lemma select_routing_Err E req repo nb w msg w' :
  select_routing E req repo nb w = (Err msg, w') →
  same_services w w' ∧ closed_nodes w' = closed_nodes w ∧
  ConstructNode w' = ConstructNode w.
Proof.
  unfold select_routing. unfold_M. intros H.
  repeat case_match; by simplify_eq.
Qed.

(** Either the bootstrap returns before a node is built, with nothing bound,
    started, mounted or closed; or it has opened the repository, read the
    configuration and built the node, and then launches the services under
    the deferred [node.Close()]. *)
Lemma daemonFunc_bootstrap_stages E req w r w' :
  daemonFunc_bootstrap E req w = (r, w') →
  (∃ msg, r = Err msg ∧ same_services w w' ∧
          closed_nodes w' = closed_nodes w ∧
          ConstructNode w' = ConstructNode w) ∨
  (∃ repo cfg nb w3 r4 w4,
     fsrepo_path repo = ConfigRoot req ∧
     GetConfig req = Ok cfg ∧
     nb_online nb = true ∧ nb_repo nb = Some repo ∧
     nb_Build E nb = None ∧
     same_services w w3 ∧
     (ConfigRoot req ∉ locks w) ∧
     locks w3 = {[ConfigRoot req]} ∪ locks w ∧
     closed_nodes w3 = closed_nodes w ∧
     res_error w3 = res_error w ∧
     (∃ stored, repos w3 !! ConfigRoot req = Some stored ∧
                repo_corrupt stored = false ∧
                fsrepo_Config repo = repo_config stored) ∧
     launch_services E req cfg (node_of nb) w3 = (r4, w4) ∧
     match r4 with
     | Ok cs => r = Ok (node_of nb, cs) ∧ w' = w4
     | Err msg => r = Err msg ∧ w' = node_Close (node_of nb) w4
     end).
Proof.
  unfold daemonFunc_bootstrap.
  unfold mbind, mret, M_bind, M_ret, bind, ret, Printf.
  set (w0 := add_stdout _ w).
  destruct (Option_Bool req initOptionKwd) as [[initialize ?] err].
  unfold orSetError at 1, check at 1. destruct err as [e|].
  { intros [= <- <-]. left. eexists. split; [reflexivity|]. by repeat split. }
  destruct (initialize_if_absent E req initialize w0) as [[[]|e] w1] eqn:H1.
  2:{ intros [= <- <-]. left. eexists. split; [done|].
      pose proof (initialize_if_absent_same_services _ _ _ _ _ _ H1)
        as (? & ? & ?).
      pose proof (initialize_if_absent_same_ownership _ _ _ _ _ _ H1)
        as (? & ? & ?).
      by repeat split. }
  pose proof (initialize_if_absent_same_services _ _ _ _ _ _ H1)
    as (Hs1 & Hs2 & Hs3).
  pose proof (initialize_if_absent_same_ownership _ _ _ _ _ _ H1)
    as (Ho1 & Ho2 & Ho3).
  assert (Hr1 : res_error w1 = res_error w).
  { clear -H1. revert H1. unfold initialize_if_absent. unfold_M.
    unfold check. intros H. repeat case_match; by simplify_eq. }
  unfold orSetError at 1.
  destruct (fsrepo_Open (ConfigRoot req) w1) as [[repo|e] w2] eqn:H2.
  2:{ apply fsrepo_Open_Err in H2 as ->. intros [= <- <-]. left.
      eexists. by repeat split. }
  pose proof (fsrepo_Open_stored _ _ _ _ H2) as Hstored.
  apply fsrepo_Open_Ok in H2 as (Hpath & Hfree & ->).
  unfold orSetError at 1, try at 1.
  destruct (GetConfig req) as [cfg|e] eqn:Hcfg.
  2:{ intros [= <- <-]. left. eexists. by repeat split. }
  match goal with
  | |- context [select_routing E req repo ?b ?x] =>
      destruct (select_routing E req repo b x) as [[nb|e] w3] eqn:H3
  end.
  2:{ apply select_routing_Err in H3 as ((? & ? & ?) & ? & ?).
      intros [= <- <-]. left. eexists. split; [done|].
      simpl in *. repeat split; congruence. }
  apply select_routing_Ok in H3 as (Hon & Hrepo & ->).
  unfold orSetError at 1, Build at 1.
  destruct (nb_Build E nb) as [e|] eqn:Hbuild.
  { intros [= <- <-]. left. eexists. by repeat split. }
  fold (node_of nb). unfold on_error.
  destruct (launch_services E req cfg (node_of nb) _) as [r4 w4] eqn:H4.
  intros H. right.
  exists repo, cfg, nb, (set_locks (fun ls => {[ConfigRoot req]} ∪ ls) w1),
    r4, w4.
  rewrite Ho1 in Hfree. simpl. rewrite Ho1, Ho2.
  split_and!; try done.
  destruct r4; by simplify_eq.
Qed.

Lemma launch_services_ownership E req cfg node w r w' :
  launch_services E req cfg node w = (r, w') →
  locks w' = locks w ∧ closed_nodes w' = closed_nodes w ∧
  ConstructNode w' = Ok node.
Proof.
  unfold launch_services.
  change (((fun w => (Ok (), set_ConstructNode (Ok node) w)) : M unit) ≫= ?k)
    with (fun w => k () (set_ConstructNode (Ok node) w)).
  cbv beta. intros H.
  enough (Hp : same_ownership (set_ConstructNode (Ok node) w) w').
  { by destruct Hp as (-> & -> & ->). }
  revert H. generalize (set_ConstructNode (Ok node) w). intros w1. revert w1 r w'.
  change (preserves same_ownership
            (apiErrc ← orSetError (mountHTTPapi E req);
             gwErrc ← (if (0 <? String.length (Addresses_Gateway cfg))%nat
                       then orSetError (mountHTTPgw E req)
                       else mret nil_chan);
             (let '(mount, _, err) := Option_Bool req mountKwd in
              orSetError (check (fun e => e) err) ;;
              (if mount then orSetError (mountFuse E req) else mret tt) ;;
              mret [apiErrc; gwErrc]))).
  frame; unfold Printf, manet_listen, go_Serve, call_ConstructNode;
    frame_fields.
Qed.



(** In that run the API was bound and serving when the gateway's launch
    failed. *)
Example failed_gateway_launch_after_API :
  listeners
    (daemonFunc_bootstrap (example_E None) example_req_bad_writable
       (example_world "/ip4/0.0.0.0/tcp/8080" [])).2
  = [(API, "/ip4/127.0.0.1/tcp/5001")].
Proof. reflexivity. Qed.

Lemma mountFuse_services E req w r w' :
  mountFuse E req w = (r, w') →
  listeners w' = listeners w ∧ serving w' = serving w.
Proof.
  unfold mountFuse. unfold_M. unfold try. intros H.
  repeat case_match; by simplify_eq.
Qed.

Lemma no_gateway_address (s : string) :
  (0 <? String.length s)%nat = false ↔ s = "".
Proof. destruct s; simpl; split; done. Qed.

Lemma launch_services_Ok E req cfg node w cs w' :
  launch_services E req cfg node w = (Ok cs, w') →
  ∃ api_bound api_opts gw,
    cs = [make_chan (launcher_goroutine (corehttp_Serve E API)); gw] ∧
    ((Addresses_Gateway cfg = "" ∧ gw = nil_chan ∧
      listeners w' = listeners w ++ [(API, api_bound)] ∧
      serving w' = serving w ++ [(API, api_opts)]) ∨
     (Addresses_Gateway cfg ≠ "" ∧
      gw = make_chan (launcher_goroutine (corehttp_Serve E Gateway)) ∧
      ∃ gw_bound gw_opts,
        listeners w' = listeners w ++ [(API, api_bound); (Gateway, gw_bound)] ∧
        serving w' = serving w ++ [(API, api_opts); (Gateway, gw_opts)])).
Proof.
  unfold launch_services.
  unfold mbind, mret, M_bind, M_ret, bind, ret, orSetError, check.
  destruct (mountHTTPapi E req (set_ConstructNode (Ok node) w))
    as [[c|e] w1] eqn:Hapi; [|done].
  apply mountHTTPapi_Ok in Hapi
    as (? & ? & api_bound & ? & ? & ? & api_opts & _ & _ & _ & _ & _ & ->
        & _ & _ & _ & ->).
  destruct (0 <? String.length (Addresses_Gateway cfg))%nat eqn:Hgw.
  - match goal with
    | |- context [mountHTTPgw E req ?x] =>
        destruct (mountHTTPgw E req x) as [[g|e] w2] eqn:Hg; [|done]
    end.
    apply mountHTTPgw_Ok in Hg
      as (? & ? & gw_bound & ? & ? & ? & gw_opts & _ & _ & _ & _ & _ & ->
          & _ & Hl & Hs).
    simpl in Hl, Hs.
    intros H.
    exists api_bound, api_opts,
      (make_chan (launcher_goroutine (corehttp_Serve E Gateway))).
    split.
    + repeat case_match; by simplify_eq.
    + right. split; [intros He; by rewrite He in Hgw|]. split; [done|].
      exists gw_bound, gw_opts.
      assert (Hw : listeners w' = listeners w2 ∧ serving w' = serving w2).
      { repeat case_match; simplify_eq; try done;
          match goal with
          | Hf : mountFuse _ _ _ = _ |- _ =>
              by apply mountFuse_services in Hf
          end. }
      destruct Hw as [-> ->]. rewrite Hl, Hs.
      by rewrite <- !app_assoc.
  - apply no_gateway_address in Hgw.
    intros H. exists api_bound, api_opts, nil_chan. split.
    + repeat case_match; by simplify_eq.
    + left. split; [done|]. split; [done|].
      repeat case_match; simplify_eq; try done;
        match goal with
        | Hf : mountFuse _ _ _ = _ |- _ =>
            by apply mountFuse_services in Hf
        end.
Qed.

(** X7.  When [daemonFunc] reaches its loop, it holds the lock of the
    request's repository, which was free before; the node is online, owns
    that repository, is the node of the request's context and is not
    closed; the API listener is bound and served; the gateway's is bound
    and served, after the API's, exactly when the configured gateway
    address is not empty; and [merge] is called on the API's signal and the
    gateway's, which is nil exactly when the address is empty. *)
Theorem bootstrap_reaches_supervision E req w node cs w' :
  daemonFunc_bootstrap E req w = (Ok (node, cs), w') →
  (ConfigRoot req ∉ locks w) ∧
  locks w' = {[ConfigRoot req]} ∪ locks w ∧
  closed_nodes w' = closed_nodes w ∧
  ConstructNode w' = Ok node ∧
  node_online node = true ∧
  (∃ repo, node_repo node = Some repo ∧ fsrepo_path repo = ConfigRoot req) ∧
  ∃ cfg api_bound api_opts gw,
    GetConfig req = Ok cfg ∧
    cs = [make_chan (launcher_goroutine (corehttp_Serve E API)); gw] ∧
    ((Addresses_Gateway cfg = "" ∧ gw = nil_chan ∧
      listeners w' = listeners w ++ [(API, api_bound)] ∧
      serving w' = serving w ++ [(API, api_opts)]) ∨
     (Addresses_Gateway cfg ≠ "" ∧
      gw = make_chan (launcher_goroutine (corehttp_Serve E Gateway)) ∧
      ∃ gw_bound gw_opts,
        listeners w' = listeners w ++ [(API, api_bound); (Gateway, gw_bound)] ∧
        serving w' = serving w ++ [(API, api_opts); (Gateway, gw_opts)])).
Proof.
  intros [(? & [=] & _)|(repo & cfg & nb & w3 & r4 & w4 & H)]
    %daemonFunc_bootstrap_stages.
  destruct H as (Hpath & Hcfg & Hon & Hrepo & _ & (Hl3 & Hs3 & _) & Hfree
                 & Hlocks & Hcn & _ & _ & H4 & Hr).
  destruct r4 as [cs'|e]; destruct Hr as [[=] ->]. subst node cs'.
  pose proof (launch_services_ownership _ _ _ _ _ _ _ H4) as (Hl4 & Hc4 & Hn4).
  apply launch_services_Ok in H4 as (api_bound & api_opts & gw & -> & Hgw).
  rewrite Hl4, Hc4, Hlocks, Hcn. split_and!; try done.
  - by exists repo.
  - exists cfg, api_bound, api_opts, gw. rewrite <- Hl3, <- Hs3.
    by split_and!.
Qed.

Lemma bootstrap_reaches_supervision_witness :
  (ConfigRoot (example_req "" "/ip4/0.0.0.0/tcp/8080" [])
   ∉ locks (example_world "/ip4/0.0.0.0/tcp/8080" [])) ∧
  locks (daemonFunc_bootstrap (example_E None)
           (example_req "" "/ip4/0.0.0.0/tcp/8080" [])
           (example_world "/ip4/0.0.0.0/tcp/8080" [])).2
  = {[ConfigRoot (example_req "" "/ip4/0.0.0.0/tcp/8080" [])]}
    ∪ locks (example_world "/ip4/0.0.0.0/tcp/8080" []) ∧
  listeners (daemonFunc_bootstrap (example_E None)
               (example_req "" "/ip4/0.0.0.0/tcp/8080" [])
               (example_world "/ip4/0.0.0.0/tcp/8080" [])).2
  = [(API, "/ip4/127.0.0.1/tcp/5001"); (Gateway, "/ip4/0.0.0.0/tcp/8080")].
Proof.
  assert (H : daemonFunc_bootstrap (example_E None)
                (example_req "" "/ip4/0.0.0.0/tcp/8080" [])
                (example_world "/ip4/0.0.0.0/tcp/8080" [])
              = (Ok ({| node_online := true;
                        node_repo :=
                          Some {| fsrepo_path := "/repo";
                                  fsrepo_Config :=
                                    example_config "/ip4/0.0.0.0/tcp/8080" [] |};
                        node_routing := Default |},
                     [chan [None] false; chan [None] false]),
                 (daemonFunc_bootstrap (example_E None)
                    (example_req "" "/ip4/0.0.0.0/tcp/8080" [])
                    (example_world "/ip4/0.0.0.0/tcp/8080" [])).2))
    by (vm_compute; reflexivity).
  destruct (bootstrap_reaches_supervision _ _ _ _ _ _ H) as (H1 & H2 & _).
  split; [exact H1|]. split; [exact H2|]. reflexivity.
Defined.

(** X8.  When, after the repository is opened, reading the configuration
    fails or the routing option cannot be read as a string, [daemonFunc]
    returns that error without closing the repository: nothing was bound
    or started, no node was built, and the lock is still held. *)
Theorem early_failure_keeps_repo_locked
    E req w r initialize initFound e :
  Option_Bool req initOptionKwd = (initialize, initFound, None) →
  repos w !! ConfigRoot req = Some r →
  repo_corrupt r = false →
  ConfigRoot req ∉ locks w →
  (GetConfig req = Err e ∨
   ∃ cfg opt found, GetConfig req = Ok cfg ∧
                    Option_String req routingOptionKwd = (opt, found, Some e)) →
  ∃ w',
    daemonFunc_bootstrap E req w = (Err e, w') ∧
    res_error w' = Some e ∧
    same_services w w' ∧
    closed_nodes w' = closed_nodes w ∧
    ConfigRoot req ∈ locks w' ∧
    fsrepo_Open (ConfigRoot req) w' = (Err "repo lock held", w').
Proof.
  intros Hinit Hrepo Hsound Hfree Hfail.
  assert (Hex : bool_decide (is_Some (repos w !! ConfigRoot req)) = true).
  { apply bool_decide_eq_true_2. rewrite Hrepo. eauto. }
  assert (Hfr : bool_decide (ConfigRoot req ∈ locks w) = false)
    by by apply bool_decide_eq_false_2.
  assert (Hin : ConfigRoot req ∈ ({[ConfigRoot req]} ∪ locks w : gset string)).
  { apply elem_of_union. left. by apply elem_of_singleton. }
  destruct Hfail as [Hcfg|(cfg & opt & found & Hcfg & Hopt)].
  - unfold daemonFunc_bootstrap, initialize_if_absent, fsrepo_Open.
    rewrite Hinit, Hcfg. unfold_M. simpl.
    destruct initialize; simpl; rewrite ?Hex; simpl;
      rewrite Hfr, Hrepo, Hsound; simpl;
      (eexists; split; [reflexivity|]; simpl; split_and!; try done;
       unfold fsrepo_Open; simpl; by rewrite bool_decide_eq_true_2).
  - rewrite (bootstrap_to_selection E req w r cfg initialize initFound)
      by done.
    unfold select_routing. rewrite Hopt. unfold_M. simpl.
    eexists; split; [reflexivity|]; simpl; split_and!; try done.
    unfold fsrepo_Open; simpl; by rewrite bool_decide_eq_true_2.
Qed.

Lemma early_failure_keeps_repo_locked_witness :
  ∃ w',
    daemonFunc_bootstrap (example_E None)
      {| Option_Bool := fun _ => (false, false, None);
         Option_String := fun _ => ("", false, None);
         ConfigRoot := "/repo";
         GetConfig := Err "config unreadable" |}
      (example_world "" [])
    = (Err "config unreadable", w') ∧
    res_error w' = Some "config unreadable" ∧
    same_services (example_world "" []) w' ∧
    closed_nodes w' = closed_nodes (example_world "" []) ∧
    "/repo" ∈ locks w' ∧
    fsrepo_Open "/repo" w' = (Err "repo lock held", w').
Proof.
  apply (early_failure_keeps_repo_locked (example_E None)
           {| Option_Bool := fun _ => (false, false, None);
              Option_String := fun _ => ("", false, None);
              ConfigRoot := "/repo";
              GetConfig := Err "config unreadable" |}
           (example_world "" []) (example_repo "" []) false false
           "config unreadable").
  - reflexivity.
  - reflexivity.
  - reflexivity.
  - apply not_elem_of_empty.
  - left. reflexivity.
Defined.

(** ** [mountFuse] *)

(** X9.  [mountFuse] mounts both file systems or changes nothing.  When it
    returns an error, the world is as before.  When it succeeds, each
    mount point is the value of its flag if the flag was given and the
    configured default otherwise, [commands.Mount] has accepted the two,
    and the two lines that announce them are printed, IPFS first. *)
Theorem mountFuse_mounts_both_or_nothing E req w r w' :
  mountFuse E req w = (r, w') →
  match r with
  | Err _ => w' = w
  | Ok _ =>
      ∃ cfg fsdir fsFound nsdir nsFound node,
        GetConfig req = Ok cfg ∧
        Option_String req ipfsMountKwd = (fsdir, fsFound, None) ∧
        Option_String req ipnsMountKwd = (nsdir, nsFound, None) ∧
        ConstructNode w = Ok node ∧
        commands_Mount E (if fsFound then fsdir else Mounts_IPFS cfg)
          (if nsFound then nsdir else Mounts_IPNS cfg) = None ∧
        w' = add_stdout
               ("IPNS mounted at: "
                +:+ (if nsFound then nsdir else Mounts_IPNS cfg))
               (add_stdout
                  ("IPFS mounted at: "
                   +:+ (if fsFound then fsdir else Mounts_IPFS cfg))
                  (add_mounted
                     (if fsFound then fsdir else Mounts_IPFS cfg,
                      if nsFound then nsdir else Mounts_IPNS cfg) w))
  end.
Proof.
  unfold mountFuse. unfold_M. unfold try.
  destruct (GetConfig req) as [cfg|]; [|by intros [= <- <-]].
  destruct (Option_String req ipfsMountKwd) as [[fsdir fsFound] err1].
  destruct err1; [by intros [= <- <-]|].
  destruct (Option_String req ipnsMountKwd) as [[nsdir nsFound] err2].
  destruct err2; [by intros [= <- <-]|].
  destruct (ConstructNode w) as [node|]; [|by intros [= <- <-]].
  destruct fsFound, nsFound; simpl;
    match goal with
    | |- context [commands_Mount E ?a ?b] =>
        destruct (commands_Mount E a b) eqn:Hm
    end; intros [= <- <-]; try done;
    eexists cfg, fsdir, _, nsdir, _, node; by split_and!.
Qed.

Lemma mountFuse_mounts_both_or_nothing_witness :
  ∃ cfg fsdir fsFound nsdir nsFound node,
    GetConfig (example_req "" "" []) = Ok cfg ∧
    Option_String (example_req "" "" []) ipfsMountKwd
    = (fsdir, fsFound, None) ∧
    Option_String (example_req "" "" []) ipnsMountKwd
    = (nsdir, nsFound, None) ∧
    ConstructNode (set_ConstructNode (Ok example_node) (example_world "" []))
    = Ok node ∧
    commands_Mount (example_E None)
      (if fsFound then fsdir else Mounts_IPFS cfg)
      (if nsFound then nsdir else Mounts_IPNS cfg) = None ∧
    add_stdout "IPNS mounted at: /ipns"
      (add_stdout "IPFS mounted at: /ipfs"
         (add_mounted ("/ipfs", "/ipns")
            (set_ConstructNode (Ok example_node) (example_world "" []))))
    = add_stdout
        ("IPNS mounted at: "
         +:+ (if nsFound then nsdir else Mounts_IPNS cfg))
        (add_stdout
           ("IPFS mounted at: "
            +:+ (if fsFound then fsdir else Mounts_IPFS cfg))
           (add_mounted
              (if fsFound then fsdir else Mounts_IPFS cfg,
               if nsFound then nsdir else Mounts_IPNS cfg)
              (set_ConstructNode (Ok example_node) (example_world "" [])))).
Proof.
  apply (mountFuse_mounts_both_or_nothing (example_E None)
           (example_req "" "" [])
           (set_ConstructNode (Ok example_node) (example_world "" []))
           (Ok tt)).
  reflexivity.
Defined.

(** ** More on the launchers *)

(** X10.  A launcher that returns an error has started no service.  The
    gateway's launcher, which reads its flag before it binds, then leaves
    the world as it was when the node of the context is there; the API's
    launcher, which reads its flag after it has bound and announced its
    listener, leaves the world as it was or with that one listener bound
    and announced. *)
Theorem failed_launcher_starts_no_service E req w msg w' :
  (mountHTTPapi E req w = (Err msg, w') →
   serving w' = serving w ∧
   (w' = w ∨
    ∃ bound, w' = add_stdout ("API server listening on " +:+ bound)
                    (add_listener (API, bound) w))) ∧
  (mountHTTPgw E req w = (Err msg, w') →
   serving w' = serving w ∧
   ∀ node, ConstructNode w = Ok node → w' = w).
Proof.
  split.
  - unfold mountHTTPapi. unfold_M. unfold try.
    destruct (GetConfig req) as [cfg|]; [|by intros [= <- <-]; split; [|left]].
    destruct (NewMultiaddr E (Addresses_API cfg)) as [maddr|];
      [|by intros [= <- <-]; split; [|left]].
    destruct (manet_Listen E maddr) as [bound|];
      [|by intros [= <- <-]; split; [|left]].
    destruct (Option_Bool req unrestrictedApiAccess) as [[u f] err].
    destruct err; simpl.
    { intros [= <- <-]. split; [done|]. right. by exists bound. }
    destruct (ConstructNode w); [done|].
    intros [= <- <-]. split; [done|]. right. by exists bound.
  - unfold mountHTTPgw. unfold_M. unfold try.
    destruct (GetConfig req) as [cfg|]; [|by intros [= <- <-]].
    destruct (NewMultiaddr E (Addresses_Gateway cfg)) as [maddr|];
      [|by intros [= <- <-]].
    destruct (Option_Bool req writableKwd) as [[wr f] err].
    destruct err; simpl; [by intros [= <- <-]|].
    destruct (manet_Listen E maddr) as [bound|]; [|by intros [= <- <-]].
    destruct (if negb f then Gateway_Writable cfg else wr); simpl;
      destruct (ConstructNode w) eqn:Hn; try done;
      by intros [= <- <-].
Qed.

(** X11.  What the gateway's launcher announces is what it serves: the
    line it prints names the address its listener is bound to and says
    "writable" exactly when its pipeline is built with
    [GatewayOption(true)]; and the pipeline holds neither the command
    bridge, nor the web UI, nor a gateway handler with a block list, nor
    the debug endpoints. *)
Theorem gateway_announces_what_it_serves E req w c w' :
  mountHTTPgw E req w = (Ok c, w') →
  ∃ bound (writable : bool) opts,
    listeners w' = listeners w ++ [(Gateway, bound)] ∧
    stdout w' = stdout w
                ++ ["Gateway ("
                    +:+ (if writable then "writable" else "readonly")
                    +:+ ") server listening on " +:+ bound] ∧
    serving w' = serving w ++ [(Gateway, opts)] ∧
    (∀ b, GatewayOption b ∈ opts ↔ b = writable) ∧
    (∀ o, o ∈ opts →
          o ≠ CommandsOption ∧ o ≠ WebUIOption ∧
          (∀ g, o ≠ GatewayServeOption g) ∧ (∀ p, o ≠ defaultMux p)).
Proof.
  unfold mountHTTPgw. unfold_M. unfold try. intros H.
  destruct (GetConfig req) as [cfg|]; [|done].
  destruct (NewMultiaddr E (Addresses_Gateway cfg)) as [maddr|]; [|done].
  destruct (Option_Bool req writableKwd) as [[wr f] err].
  destruct err; [done|]. simpl in H.
  destruct (manet_Listen E maddr) as [bound|]; [|done].
  destruct (if negb f then Gateway_Writable cfg else wr) eqn:Hw;
    simpl in H; (destruct (ConstructNode w); [|done]);
    injection H as <- <-; simpl;
    [exists bound, true | exists bound, false]; eexists;
    (split_and!; [done | done | done | |]);
    destruct (0 <? String.length (Gateway_RootRedirect cfg))%nat; simpl.
  all: try (intros b; split;
            [ intros Hb;
              repeat (apply elem_of_cons in Hb as [Hb|Hb];
                      [by simplify_eq|]);
              by apply elem_of_nil in Hb
            | intros ->; do 2 right; by left ]).
  all: intros o Ho;
    repeat (apply elem_of_cons in Ho as [->|Ho]; [by split_and!|]);
    by apply elem_of_nil in Ho.
Qed.

Lemma gateway_announces_what_it_serves_witness :
  ∃ bound (writable : bool) opts,
    listeners
      (add_serving
         (Gateway, [VersionOption; IPNSHostnameOption; GatewayOption false])
         (add_stdout
            "Gateway (readonly) server listening on /ip4/0.0.0.0/tcp/8080"
            (add_listener (Gateway, "/ip4/0.0.0.0/tcp/8080")
               (set_ConstructNode (Ok example_node) (example_world "" [])))))
    = listeners (set_ConstructNode (Ok example_node) (example_world "" []))
      ++ [(Gateway, bound)] ∧
    stdout
      (add_serving
         (Gateway, [VersionOption; IPNSHostnameOption; GatewayOption false])
         (add_stdout
            "Gateway (readonly) server listening on /ip4/0.0.0.0/tcp/8080"
            (add_listener (Gateway, "/ip4/0.0.0.0/tcp/8080")
               (set_ConstructNode (Ok example_node) (example_world "" [])))))
    = stdout (set_ConstructNode (Ok example_node) (example_world "" []))
      ++ ["Gateway ("
          +:+ (if writable then "writable" else "readonly")
          +:+ ") server listening on " +:+ bound] ∧
    serving
      (add_serving
         (Gateway, [VersionOption; IPNSHostnameOption; GatewayOption false])
         (add_stdout
            "Gateway (readonly) server listening on /ip4/0.0.0.0/tcp/8080"
            (add_listener (Gateway, "/ip4/0.0.0.0/tcp/8080")
               (set_ConstructNode (Ok example_node) (example_world "" [])))))
    = serving (set_ConstructNode (Ok example_node) (example_world "" []))
      ++ [(Gateway, opts)] ∧
    (∀ b, GatewayOption b ∈ opts ↔ b = writable) ∧
    (∀ o, o ∈ opts →
          o ≠ CommandsOption ∧ o ≠ WebUIOption ∧
          (∀ g, o ≠ GatewayServeOption g) ∧ (∀ p, o ≠ defaultMux p)).
Proof.
  apply (gateway_announces_what_it_serves (example_E None)
           (example_req "" "/ip4/0.0.0.0/tcp/8080" [])
           (set_ConstructNode (Ok example_node) (example_world "" []))
           (chan [None] false)).
  reflexivity.
Defined.

(** ** When the merged signal closes *)

Lemma daemonFunc_never_ends_cleanly_witness :
  out_closed {| outputs := [{| src_pending := []; src_closes := false;
                               at_ := Receiving |}];
                wg := 2; out_closed := false; loop := Ranging;
                received := [None] |} = false ∧
  Ranging ≠ ReturnedClean.
Proof.
  apply (daemonFunc_never_ends_cleanly (example_E None)
           (example_req "" "" []) (example_world "" [])
           {| node_online := true;
              node_repo := Some (example_fsrepo []);
              node_routing := Default |}
           [chan [None] false; nil_chan]
           (daemonFunc_bootstrap (example_E None) (example_req "" "" [])
              (example_world "" [])).2
           [Output 0; Output 0]
           {| outputs := [{| src_pending := []; src_closes := false;
                             at_ := Receiving |}];
              wg := 2; out_closed := false; loop := Ranging;
              received := [None] |}).
  - vm_compute. reflexivity.
  - reflexivity.
Defined.

Lemma closing_or_never_closed (cs : list ErrorSignal) :
  Forall closing cs ∨ Exists never_closed cs.
Proof.
  induction cs as [|c cs [IH|IH]].
  - left. constructor.
  - destruct c as [|vs [|]].
    + right. left. by left.
    + left. constructor; [by exists vs | done].
    + right. left. right. by exists vs.
  - right. by right.
Qed.

(** X13.  [merge] closes its output only for signals that are all channels
    closed by their producers: if [out] is closed in some run, or the loop
    has ended cleanly, then no signal was nil and none was left open. *)
Theorem merge_closes_only_closing_signals (cs : list ErrorSignal) sched s :
  run sched (merge cs) = Some s →
  out_closed s = true ∨ loop s = ReturnedClean →
  Forall closing cs.
Proof.
  intros Hrun Hclosed.
  destruct (closing_or_never_closed cs) as [H|H]; [done|].
  destruct (merge_never_closes cs sched s H Hrun) as [Ho Hl].
  destruct Hclosed; congruence.
Qed.

Lemma merge_closes_only_closing_signals_witness :
  Forall closing [chan [] true; chan [None] true].
Proof.
  apply (merge_closes_only_closing_signals
           [chan [] true; chan [None] true]
           [Output 0; Output 1; Output 1; Output 1; Closer]
           {| outputs := [{| src_pending := []; src_closes := true;
                             at_ := Finished |};
                          {| src_pending := []; src_closes := true;
                             at_ := Finished |}];
              wg := 0; out_closed := true; loop := Ranging;
              received := [None] |}).
  - reflexivity.
  - by left.
Defined.

(** ** Initialisation only on request *)

#[global] Instance same_repos_preorder : PreOrder same_repos.
Proof.
  split.
  - by intros w.
  - intros w1 w2 w3 H1 H2. unfold same_repos in *. by rewrite H2.
Qed.

Lemma mbind_inv {A B} (m : M A) (k : A -> M B) w r w' :
  (m ≫= k) w = (r, w') →
  (∃ a w1, m w = (Ok a, w1) ∧ k a w1 = (r, w')) ∨
  (∃ msg, m w = (Err msg, w') ∧ r = Err msg).
Proof.
  unfold mbind, M_bind, bind. destruct (m w) as [[a|msg] w1].
  - intros H. left. by exists a, w1.
  - intros [= <- <-]. right. by exists msg.
Qed.

(** Closes the leaves [frame] stops at, for [same_repos]. *)
Ltac frame_repos :=
  try (let w := fresh "w" in intros w ? ?; unfold try, check; intros);
  repeat case_match; simplify_eq; unfold same_repos; simpl; done.

(** X14.  [daemonFunc] creates or alters a repository only on request:
    when the initialize flag is not set, or a repository is already there
    at the root of the request, the repositories are the same after the
    bootstrap as before, however it ends. *)
Theorem repositories_untouched_without_init
    E req w initialize initFound err r w' :
  Option_Bool req initOptionKwd = (initialize, initFound, err) →
  initialize = false ∨ is_Some (repos w !! ConfigRoot req) →
  daemonFunc_bootstrap E req w = (r, w') →
  repos w' = repos w.
Proof.
  intros Hinit Hno. unfold daemonFunc_bootstrap. rewrite Hinit.
  intros [(? & w0 & [= <- <-] & H)|(? & [=] & _)]%mbind_inv.
  apply mbind_inv in H as [(? & w1 & H1 & H)|(? & H1 & _)].
  2:{ revert H1. unfold orSetError, check.
      destruct err; intros H1; by simplify_eq. }
  assert (w1 = add_stdout "Initializing daemon..." w) as ->.
  { revert H1. unfold orSetError, check.
    destruct err; intros H1; by simplify_eq. }
  apply mbind_inv in H as [(? & w2 & H2 & H)|(? & H2 & _)].
  - assert (w2 = add_stdout "Initializing daemon..." w) as ->.
    { revert H2. unfold initialize_if_absent. unfold_M.
      destruct Hno as [->|Hex]; [by intros [= <-]|].
      destruct initialize; [|by intros [= <-]]. simpl.
      rewrite bool_decide_eq_true_2 by done. by intros [= <-]. }
    enough (Hp : same_repos (add_stdout "Initializing daemon..." w) w')
      by exact Hp.
    revert H. generalize (add_stdout "Initializing daemon..." w).
    clear. intros w0. revert w0 r w'.
    match goal with
    | |- ∀ w0 r w', ?m w0 = (r, w') → _ => change (preserves same_repos m)
    end.
    unfold select_routing, launch_services.
    frame;
      unfold fsrepo_Open, Build, node_Close, repo_Close, Printf, manet_listen,
        go_Serve, call_ConstructNode;
      frame_repos.
  - revert H2. unfold initialize_if_absent. unfold_M.
    destruct Hno as [->|Hex]; [by intros [= <-]|].
    destruct initialize; [|by intros [= <-]]. simpl.
    by rewrite bool_decide_eq_true_2 by done.
Qed.

Lemma repositories_untouched_without_init_witness :
  repos (daemonFunc_bootstrap (example_E None) (example_req "" "" [])
           ({| repos := ∅; locks := ∅; listeners := []; serving := [];
               mounted := []; closed_nodes := [];
               ConstructNode := Err "no node"; stdout := [];
               res_error := None |})).2
  = ∅.
Proof.
  apply (repositories_untouched_without_init (example_E None)
           (example_req "" "" [])
           {| repos := ∅; locks := ∅; listeners := []; serving := [];
              mounted := []; closed_nodes := [];
              ConstructNode := Err "no node"; stdout := [];
              res_error := None |}
           false false None
           (daemonFunc_bootstrap (example_E None) (example_req "" "" [])
              {| repos := ∅; locks := ∅; listeners := []; serving := [];
                 mounted := []; closed_nodes := [];
                 ConstructNode := Err "no node"; stdout := [];
                 res_error := None |}).1).
  - reflexivity.
  - by left.
  - reflexivity.
Defined.

(** ** Services only on an opened repository *)

Lemma launch_services_same_repos E req cfg node w r w' :
  launch_services E req cfg node w = (r, w') → repos w' = repos w.
Proof.
  revert w r w'.
  change (preserves same_repos (launch_services E req cfg node)).
  unfold launch_services.
  frame;
    unfold Printf, manet_listen, go_Serve, call_ConstructNode;
    frame_repos.
Qed.

(** X5.  [daemonFunc] binds a listener, starts a service or mounts a file
    system only after it has opened the repository of the request and
    [nb.Build] has built a node from a builder that is online and holds
    that repository: when the bootstrap leaves a listener, a service or a
    mount that was not there, the lock of the root was free, the handle
    the builder holds is that of the sound repository stored at the root,
    the node of the request context is the node built from that builder,
    and this node is the one supervised, with the lock taken, when the
    bootstrap succeeds, and the one closed when a launch has failed. *)
Theorem services_only_after_online_node E req w r w' :
  daemonFunc_bootstrap E req w = (r, w') →
  same_services w w' ∨
  ∃ stored repo nb,
    (ConfigRoot req ∉ locks w) ∧
    repos w' !! ConfigRoot req = Some stored ∧
    repo_corrupt stored = false ∧
    repo = {| fsrepo_path := ConfigRoot req;
              fsrepo_Config := repo_config stored |} ∧
    nb_online nb = true ∧ nb_repo nb = Some repo ∧ nb_Build E nb = None ∧
    ConstructNode w' = Ok (node_of nb) ∧
    match r with
    | Ok (node, _) =>
        node = node_of nb ∧ locks w' = {[ConfigRoot req]} ∪ locks w ∧
        closed_nodes w' = closed_nodes w
    | Err _ => closed_nodes w' = closed_nodes w ++ [node_of nb]
    end.
Proof.
  intros [(msg & _ & Hs & _)|(repo & cfg & nb & w3 & r4 & w4 & H)]
    %daemonFunc_bootstrap_stages.
  { by left. }
  right.
  destruct H as (Hpath & _ & Hon & Hrepo & Hbuild & _ & Hfree & Hl & Hcn & _
                 & (stored & Hst & Hsound & Hcfg) & H4 & Hr).
  pose proof (launch_services_same_repos _ _ _ _ _ _ _ H4) as Hrepos.
  apply launch_services_ownership in H4 as (Hl4 & Hc4 & Hn4).
  exists stored, repo, nb.
  assert (Hhandle : repo = {| fsrepo_path := ConfigRoot req;
                              fsrepo_Config := repo_config stored |})
    by (destruct repo; simpl in *; congruence).
  destruct r4 as [cs|e]; destruct Hr as [-> ->].
  - rewrite Hrepos, Hl4, Hc4. by split_and!.
  - unfold node_Close, node_of at 2. simpl. rewrite Hrepo.
    unfold repo_Close. simpl. rewrite Hrepos, Hc4, Hcn. by split_and!.
Qed.

Lemma services_only_after_online_node_witness :
  same_services (example_world "" [])
    (daemonFunc_bootstrap (example_E None) (example_req "" "" [])
       (example_world "" [])).2 ∨
  ∃ stored repo nb,
    (ConfigRoot (example_req "" "" []) ∉ locks (example_world "" [])) ∧
    repos (daemonFunc_bootstrap (example_E None) (example_req "" "" [])
             (example_world "" [])).2
      !! ConfigRoot (example_req "" "" []) = Some stored ∧
    repo_corrupt stored = false ∧
    repo = {| fsrepo_path := ConfigRoot (example_req "" "" []);
              fsrepo_Config := repo_config stored |} ∧
    nb_online nb = true ∧ nb_repo nb = Some repo ∧
    nb_Build (example_E None) nb = None ∧
    ConstructNode (daemonFunc_bootstrap (example_E None)
                     (example_req "" "" []) (example_world "" [])).2
    = Ok (node_of nb) ∧
    match (daemonFunc_bootstrap (example_E None) (example_req "" "" [])
             (example_world "" [])).1 with
    | Ok (node, _) =>
        node = node_of nb ∧
        locks (daemonFunc_bootstrap (example_E None) (example_req "" "" [])
                 (example_world "" [])).2
        = {[ConfigRoot (example_req "" "" [])]} ∪ locks (example_world "" []) ∧
        closed_nodes (daemonFunc_bootstrap (example_E None)
                        (example_req "" "" []) (example_world "" [])).2
        = closed_nodes (example_world "" [])
    | Err _ =>
        closed_nodes (daemonFunc_bootstrap (example_E None)
                        (example_req "" "" []) (example_world "" [])).2
        = closed_nodes (example_world "" []) ++ [node_of nb]
    end.
Proof.
  apply (services_only_after_online_node (example_E None)
           (example_req "" "" []) (example_world "" [])
           (daemonFunc_bootstrap (example_E None) (example_req "" "" [])
              (example_world "" [])).1).
  reflexivity.
Defined.


(** Without the flag and without a repository the daemon stops at
    [fsrepo.Open]. *)
Example no_repository_no_init :
  (daemonFunc_bootstrap (example_E None) (example_req "" "" [])
     {| repos := ∅; locks := ∅; listeners := []; serving := [];
        mounted := []; closed_nodes := [];
        ConstructNode := Err "no node"; stdout := [];
        res_error := None |}).1
  = Err "repo uninitialized".
Proof. reflexivity. Qed.

(** ** The routing of the node *)

Lemma select_routing_selected E req repo nb0 w nb w' :
  select_routing E req repo nb0 w = (Ok nb, w') →
  ∃ routingOption found,
    Option_String req routingOptionKwd = (routingOption, found, None) ∧
    ((routingOption = "supernode" ∧
      ∃ addrs,
        ServerIPFSAddrs E (SupernodeRouting_Servers (fsrepo_Config repo))
        = Ok addrs ∧
        nb = SetRouting (FixedPeerSet (map PeerInfo_of addrs)) nb0) ∨
     (routingOption ≠ "supernode" ∧ nb = nb0)).
Proof.
  unfold select_routing.
  destruct (Option_String req routingOptionKwd) as [[opt found] err].
  unfold_M. destruct err; simpl; [done|].
  destruct (String.eqb_spec opt routingOptionSupernodeKwd) as [->|Hne].
  - destruct (ServerIPFSAddrs E _) as [addrs|] eqn:Hs; simpl; [|done].
    intros [= <- <-]. exists "supernode", found. split; [done|]. left.
    split; [done|]. exists addrs. split; [done|].
    pose proof (append_infos addrs []) as Hf. unfold PeerInfo_of in Hf.
    unfold SupernodeClient. simpl in Hf. by rewrite Hf.
  - intros [= <- <-]. exists opt, found. split; [done|]. by right.
Qed.

(** X15.  The node [daemonFunc] supervises carries the routing that was
    selected: with the routing option ["supernode"] it is the fixed peer
    set made, in order, of the server addresses in the configuration of
    the repository that was opened, all of which parse; with any other
    value it is the builder's default. *)
Theorem node_carries_selected_routing E req w node cs w' :
  daemonFunc_bootstrap E req w = (Ok (node, cs), w') →
  ∃ repo routingOption found,
    node_repo node = Some repo ∧
    Option_String req routingOptionKwd = (routingOption, found, None) ∧
    ((routingOption = "supernode" ∧
      ∃ addrs,
        ServerIPFSAddrs E (SupernodeRouting_Servers (fsrepo_Config repo))
        = Ok addrs ∧
        node_routing node = FixedPeerSet (map PeerInfo_of addrs)) ∨
     (routingOption ≠ "supernode" ∧ node_routing node = Default)).
Proof.
  unfold daemonFunc_bootstrap.
  unfold mbind, mret, M_bind, M_ret, bind, ret, orSetError, on_error, Printf,
    Build.
  intros H. repeat case_match; simplify_eq.
  match goal with
  | Hs : select_routing _ _ _ _ _ = _ |- _ => rename Hs into Hsel
  end.
  match type of Hsel with
  | select_routing _ _ ?repo _ _ = _ => exists repo
  end.
  apply select_routing_selected in Hsel
    as (opt & found & Hopt & [(Hs & addrs & Ha & Hnb)|(Hne & Hnb)]);
    exists opt, found; subst; simpl.
  - split; [done|]. split; [done|]. left. split; [done|]. by exists addrs.
  - split; [done|]. split; [done|]. by right.
Qed.

Lemma node_carries_selected_routing_witness :
  ∃ repo routingOption found,
    node_repo
      {| node_online := true;
         node_repo :=
           Some (example_fsrepo ["/ip4/127.0.0.1/tcp/4001/ipfs/P"]);
         node_routing :=
           FixedPeerSet [{| ID := "P";
                            Addrs := ["/ip4/127.0.0.1/tcp/4001"] |}] |}
    = Some repo ∧
    Option_String
      (example_req "supernode" "" ["/ip4/127.0.0.1/tcp/4001/ipfs/P"])
      routingOptionKwd
    = (routingOption, found, None) ∧
    ((routingOption = "supernode" ∧
      ∃ addrs,
        ServerIPFSAddrs (example_E None)
          (SupernodeRouting_Servers (fsrepo_Config repo))
        = Ok addrs ∧
        node_routing
          {| node_online := true;
             node_repo :=
               Some (example_fsrepo ["/ip4/127.0.0.1/tcp/4001/ipfs/P"]);
             node_routing :=
               FixedPeerSet [{| ID := "P";
                                Addrs := ["/ip4/127.0.0.1/tcp/4001"] |}] |}
        = FixedPeerSet (map PeerInfo_of addrs)) ∨
     (routingOption ≠ "supernode" ∧
      node_routing
        {| node_online := true;
           node_repo :=
             Some (example_fsrepo ["/ip4/127.0.0.1/tcp/4001/ipfs/P"]);
           node_routing :=
             FixedPeerSet [{| ID := "P";
                              Addrs := ["/ip4/127.0.0.1/tcp/4001"] |}] |}
      = Default)).
Proof.
  apply (node_carries_selected_routing (example_E None)
           (example_req "supernode" "" ["/ip4/127.0.0.1/tcp/4001/ipfs/P"])
           (example_world "" ["/ip4/127.0.0.1/tcp/4001/ipfs/P"])
           _ [chan [None] false; nil_chan]
           (daemonFunc_bootstrap (example_E None)
              (example_req "supernode" "" ["/ip4/127.0.0.1/tcp/4001/ipfs/P"])
              (example_world "" ["/ip4/127.0.0.1/tcp/4001/ipfs/P"])).2).
  vm_compute. reflexivity.
Defined.

(** * The release helpers *)

Lemma GitHubClient_token s :
  has_token s → ∃ token, GitHubClient s = Some (Ok token, s).
Proof.
  intros (token & Ht & Hne). exists token.
  unfold GitHubClient, Getenv, mbind, G_bind, mret, G_ret. rewrite Ht. simpl.
  apply String.eqb_neq in Hne. by rewrite Hne.
Qed.

Lemma GitHubClient_no_token s :
  default "" (env s !! "GITHUB_TOKEN") = "" →
  GitHubClient s = Some (Err "env var GITHUB_TOKEN must be set", s).
Proof.
  intros Ht. unfold GitHubClient, Getenv, mbind, G_bind, fail. by rewrite Ht.
Qed.

Lemma has_token_printed s line :
  has_token s →
  has_token {| env := env s; api_calls := api_calls s;
               printed := printed s ++ [line] |}.
Proof. done. Qed.

(** X16.  [getSignature] never yields an empty name or e-mail address: each
    is the value of its environment variable when that is set and not
    empty, and the fixed default otherwise; the environment is only
    read. *)
Theorem getSignature_never_empty s :
  ∃ sig,
    getSignature s = Some (Ok sig, s) ∧
    sig_Name sig ≠ "" ∧ sig_Email sig ≠ "" ∧
    sig_Name sig = (if String.eqb (default "" (env s !! "GITHUB_USER_NAME")) ""
                    then "Kubo Mage"
                    else default "" (env s !! "GITHUB_USER_NAME")) ∧
    sig_Email sig = (if String.eqb (default "" (env s !! "GITHUB_USER_EMAIL")) ""
                     then "noreply+kubo-mage@ipfs.tech"
                     else default "" (env s !! "GITHUB_USER_EMAIL")).
Proof.
  eexists. split.
  { unfold getSignature, Getenv, mbind, G_bind, mret, G_ret. reflexivity. }
  simpl. split_and!; try done.
  - destruct (String.eqb_spec (default "" (env s !! "GITHUB_USER_NAME")) "");
      done.
  - destruct (String.eqb_spec (default "" (env s !! "GITHUB_USER_EMAIL")) "");
      done.
Qed.

(** X17.  Without a token in [GITHUB_TOKEN] (unset or empty), each of
    [GetIssue], [CreateIssue], [GetIssueComment], [CreateIssueComment],
    [GetBranch], [CreateBranch] and [GetCheckRuns] prints its one line and
    fails with the client's error, whatever the fuel, without a single
    call of the API. *)
Theorem helpers_refused_without_token
    fuel gh owner repo title body name source ref s :
  default "" (env s !! "GITHUB_TOKEN") = "" →
  refused (GetIssue fuel gh owner repo title) s ∧
  refused (CreateIssue gh owner repo title body) s ∧
  refused (GetIssueComment fuel gh owner repo title body) s ∧
  refused (CreateIssueComment fuel gh owner repo title body) s ∧
  refused (GetBranch gh owner repo name) s ∧
  refused (CreateBranch gh owner repo name source) s ∧
  refused (GetCheckRuns fuel gh owner repo ref) s.
Proof.
  intros Ht.
  split_and!; eexists;
    unfold GetIssue, CreateIssue, GetIssueComment, CreateIssueComment,
      GetBranch, CreateBranch, GetCheckRuns, Println;
    unfold mbind at 1 2; unfold G_bind at 1 2;
    by rewrite GitHubClient_no_token.
Qed.

Lemma helpers_refused_without_token_witness :
  refused (GetIssue 0 example_GitHub "ipfs" "kubo" "Release 0.18")
    (example_Sys "") ∧
  refused (CreateIssue example_GitHub "ipfs" "kubo" "Release 0.18" "text")
    (example_Sys "") ∧
  refused (GetIssueComment 0 example_GitHub "ipfs" "kubo" "Release 0.18"
             "text") (example_Sys "") ∧
  refused (CreateIssueComment 0 example_GitHub "ipfs" "kubo" "Release 0.18"
             "text") (example_Sys "") ∧
  refused (GetBranch example_GitHub "ipfs" "kubo" "release") (example_Sys "") ∧
  refused (CreateBranch example_GitHub "ipfs" "kubo" "release" "master")
    (example_Sys "") ∧
  refused (GetCheckRuns 0 example_GitHub "ipfs" "kubo" "master")
    (example_Sys "").
Proof.
  apply (helpers_refused_without_token 0 example_GitHub "ipfs" "kubo"
           "Release 0.18" "text" "release" "master" "master" (example_Sys "")).
  reflexivity.
Defined.

(** ** Searching page by page *)

Lemma find_app {A} (f : A -> bool) (l1 l2 : list A) :
  find f (l1 ++ l2)
  = match find f l1 with Some x => Some x | None => find f l2 end.
Proof.
  induction l1 as [|x l1 IH]; simpl; [done|]. by destruct (f x).
Qed.

Lemma GetIssue_loop_paged gh q title Page pages :
  paged (fun p => search_issues gh q p 100) Page pages →
  ∀ fuel s, length pages ≤ fuel →
    ∃ calls,
      GetIssue_loop fuel gh q title Page s
      = Some (Ok (first_titled title (concat pages)),
              {| env := env s; api_calls := api_calls s ++ calls;
                 printed := printed s |}) ∧
      length calls = pages_read title pages ∧ searches q calls.
Proof.
  unfold searches.
  induction 1 as [Page items Hsrv|Page items NextPage rest Hsrv Hnext _ IH];
    intros [|fuel] s Hfuel; simpl in Hfuel; try lia; simpl;
    unfold first_titled in *; unfold mbind, G_bind, call; rewrite Hsrv; simpl.
  - exists [Search_Issues q Page 100]. rewrite app_nil_r.
    rewrite orb_true_r. split; [done|].
    split; [by destruct (find _ items)|].
    repeat constructor. by eexists.
  - rewrite find_app.
    destruct (find _ items) as [i|] eqn:Hfind; simpl.
    + exists [Search_Issues q Page 100]. split; [done|].
      split; [done|]. repeat constructor. by eexists.
    + apply Nat.eqb_neq in Hnext. rewrite Hnext.
      destruct (IH fuel {| env := env s;
                           api_calls := api_calls s ++ [Search_Issues q Page 100];
                           printed := printed s |}) as (calls & Hrun & Hlen & Hall);
        [lia|].
      exists (Search_Issues q Page 100 :: calls). simpl in Hrun.
      rewrite Hrun. rewrite <- app_assoc. split; [done|].
      split; [simpl; by rewrite Hlen|]. constructor; [by eexists | done].
Qed.

Lemma pages_read_bounds title (pages : list (list Issue)) :
  pages ≠ [] → 0 < pages_read title pages ≤ length pages.
Proof.
  induction pages as [|items rest IH]; [done|]. intros _. simpl.
  destruct (not_nil _); [lia|].
  destruct rest as [|items' rest']; [simpl; lia|].
  assert (0 < pages_read title (items' :: rest')
          ≤ length (items' :: rest')) by (by apply IH).
  lia.
Qed.

(** X18.  With a token, when the search presents its results on pages the
    last of which names no next page, [GetIssue] on enough fuel (one unit
    per page) returns the first issue, in page order, whose title is
    exactly the title asked for, and nil when no issue on any page has it;
    it only searches, with its own query, and stops at the page of the
    match: it reads the pages up to and including the first that holds
    such an issue and none after it, and all of them when there is none;
    it changes nothing else. *)
Theorem GetIssue_returns_first_match gh owner repo title pages fuel s :
  has_token s →
  paged (fun p => search_issues gh (issue_query owner repo title) p 100)
    0 pages →
  length pages ≤ fuel →
  ∃ line calls,
    GetIssue fuel gh owner repo title s
    = Some (Ok (first_titled title (concat pages)),
            {| env := env s; api_calls := api_calls s ++ calls;
               printed := printed s ++ [line] |}) ∧
    length calls = pages_read title pages ∧
    0 < length calls ≤ length pages ∧
    searches (issue_query owner repo title) calls ∧
    (∀ i, first_titled title (concat pages) = Some i →
          issue_Title i = title ∧ i ∈ concat pages) ∧
    (first_titled title (concat pages) = None →
     ∀ i, i ∈ concat pages → issue_Title i ≠ title).
Proof.
  intros Htok Hpaged Hfuel. unfold GetIssue, Println.
  set (line := "Getting issue [owner: " +:+ owner +:+ ", repo: " +:+ repo
               +:+ ", title: " +:+ title +:+ "]").
  exists line. unfold mbind at 1 2. unfold G_bind at 1 2.
  destruct (GitHubClient_token _ (has_token_printed s line Htok)) as [tok ->].
  destruct (GetIssue_loop_paged gh _ title 0 pages Hpaged fuel
              {| env := env s; api_calls := api_calls s;
                 printed := printed s ++ [line] |} Hfuel)
    as (calls & Hrun & Hlen & Hall).
  exists calls. fold (issue_query owner repo title).
  split; [exact Hrun|]. split; [done|]. split.
  { rewrite Hlen. apply pages_read_bounds. by destruct Hpaged. }
  split; [done|]. split.
  - intros i [Hin Ht]%find_some. apply String.eqb_eq in Ht.
    split; [done|]. by apply list_elem_of_In.
  - intros Hnone i Hin%list_elem_of_In.
    pose proof (find_none _ _ Hnone i Hin) as Hf. simpl in Hf.
    by apply String.eqb_neq.
Qed.

Lemma GetIssue_returns_first_match_witness :
  ∃ line calls,
    GetIssue 2 example_GitHub_paged "ipfs" "kubo" "Release 0.19"
      (example_Sys "secret")
    = Some (Ok (first_titled "Release 0.19"
                  (concat [[{| issue_Number := 7;
                               issue_Title := "Release 0.18 (draft)" |};
                            {| issue_Number := 9;
                               issue_Title := "Release 0.18" |}];
                           [{| issue_Number := 11;
                               issue_Title := "Release 0.19" |}]])),
            {| env := env (example_Sys "secret");
               api_calls := api_calls (example_Sys "secret") ++ calls;
               printed := printed (example_Sys "secret") ++ [line] |}) ∧
    length calls
    = pages_read "Release 0.19"
        [[{| issue_Number := 7; issue_Title := "Release 0.18 (draft)" |};
          {| issue_Number := 9; issue_Title := "Release 0.18" |}];
         [{| issue_Number := 11; issue_Title := "Release 0.19" |}]] ∧
    0 < length calls
    ≤ length [[{| issue_Number := 7; issue_Title := "Release 0.18 (draft)" |};
               {| issue_Number := 9; issue_Title := "Release 0.18" |}];
              [{| issue_Number := 11; issue_Title := "Release 0.19" |}]] ∧
    searches (issue_query "ipfs" "kubo" "Release 0.19") calls ∧
    (∀ i, first_titled "Release 0.19"
            (concat [[{| issue_Number := 7;
                         issue_Title := "Release 0.18 (draft)" |};
                      {| issue_Number := 9;
                         issue_Title := "Release 0.18" |}];
                     [{| issue_Number := 11;
                         issue_Title := "Release 0.19" |}]]) = Some i →
          issue_Title i = "Release 0.19" ∧
          i ∈ concat [[{| issue_Number := 7;
                          issue_Title := "Release 0.18 (draft)" |};
                       {| issue_Number := 9;
                          issue_Title := "Release 0.18" |}];
                      [{| issue_Number := 11;
                          issue_Title := "Release 0.19" |}]]) ∧
    (first_titled "Release 0.19"
       (concat [[{| issue_Number := 7;
                    issue_Title := "Release 0.18 (draft)" |};
                 {| issue_Number := 9; issue_Title := "Release 0.18" |}];
                [{| issue_Number := 11; issue_Title := "Release 0.19" |}]])
     = None →
     ∀ i, i ∈ concat [[{| issue_Number := 7;
                          issue_Title := "Release 0.18 (draft)" |};
                       {| issue_Number := 9;
                          issue_Title := "Release 0.18" |}];
                      [{| issue_Number := 11;
                          issue_Title := "Release 0.19" |}]] →
          issue_Title i ≠ "Release 0.19").
Proof.
  apply (GetIssue_returns_first_match example_GitHub_paged "ipfs" "kubo"
           "Release 0.19"
           [[{| issue_Number := 7; issue_Title := "Release 0.18 (draft)" |};
             {| issue_Number := 9; issue_Title := "Release 0.18" |}];
            [{| issue_Number := 11; issue_Title := "Release 0.19" |}]]
           2 (example_Sys "secret")).
  - exists "secret". split; [reflexivity | discriminate].
  - apply (paged_more _ 0 _ 2); [reflexivity | done |].
    apply paged_last. reflexivity.
  - simpl. lia.
Defined.

(** On the same two pages the search for "Release 0.18" stops at the first
    page, where the issue is: one page is read, not two. *)
Example GetIssue_stops_at_the_match :
  pages_read "Release 0.18"
    [[{| issue_Number := 7; issue_Title := "Release 0.18 (draft)" |};
      {| issue_Number := 9; issue_Title := "Release 0.18" |}];
     [{| issue_Number := 11; issue_Title := "Release 0.19" |}]] = 1 ∧
  (api_calls <$> (snd <$> GetIssue 2 example_GitHub_paged "ipfs" "kubo"
                            "Release 0.18" (example_Sys "secret")))
  = Some [Search_Issues (issue_query "ipfs" "kubo" "Release 0.18") 0 100].
Proof. split; reflexivity. Qed.

(** The issue found there is number 9, not the draft that comes first. *)
Example GetIssue_exact_title :
  first_titled "Release 0.18"
    [{| issue_Number := 7; issue_Title := "Release 0.18 (draft)" |};
     {| issue_Number := 9; issue_Title := "Release 0.18" |}]
  = Some {| issue_Number := 9; issue_Title := "Release 0.18" |}.
Proof. reflexivity. Qed.

Lemma GetIssue_paged gh owner repo title pages fuel s :
  has_token s →
  paged (fun p => search_issues gh (issue_query owner repo title) p 100)
    0 pages →
  length pages ≤ fuel →
  ∃ line calls,
    GetIssue fuel gh owner repo title s
    = Some (Ok (first_titled title (concat pages)),
            {| env := env s; api_calls := api_calls s ++ calls;
               printed := printed s ++ [line] |}) ∧
    searches (issue_query owner repo title) calls.
Proof.
  intros Htok Hpaged Hfuel. unfold GetIssue, Println.
  set (line := "Getting issue [owner: " +:+ owner +:+ ", repo: " +:+ repo
               +:+ ", title: " +:+ title +:+ "]").
  exists line. unfold mbind at 1 2. unfold G_bind at 1 2.
  destruct (GitHubClient_token _ (has_token_printed s line Htok)) as [tok ->].
  destruct (GetIssue_loop_paged gh _ title 0 pages Hpaged fuel
              {| env := env s; api_calls := api_calls s;
                 printed := printed s ++ [line] |} Hfuel)
    as (calls & Hrun & Hlen & Hall).
  exists calls. by fold (issue_query owner repo title).
Qed.

Lemma GetCheckRuns_loop_paged gh owner repo ref Page pages :
  paged (fun p => list_check_runs gh owner repo ref p 100) Page pages →
  ∀ fuel runs s, length pages ≤ fuel →
    ∃ calls,
      GetCheckRuns_loop fuel gh owner repo ref runs Page s
      = Some (Ok (runs ++ concat pages),
              {| env := env s; api_calls := api_calls s ++ calls;
                 printed := printed s |}) ∧
      length calls = length pages ∧
      Forall (fun c => ∃ p, c = Checks_ListCheckRunsForRef owner repo ref p 100)
        calls.
Proof.
  induction 1 as [Page items Hsrv|Page items NextPage rest Hsrv Hnext _ IH];
    intros [|fuel] runs s Hfuel; simpl in Hfuel; try lia; simpl;
    unfold mbind, G_bind, call; rewrite Hsrv; simpl.
  - eexists [_]. rewrite app_nil_r. split; [done|]. split; [done|].
    repeat constructor. by eexists.
  - apply Nat.eqb_neq in Hnext. rewrite Hnext.
    destruct (IH fuel (runs ++ items)
                {| env := env s;
                   api_calls := api_calls s
                     ++ [Checks_ListCheckRunsForRef owner repo ref Page 100];
                   printed := printed s |}) as (calls & Hrun & Hlen & Hall);
      [lia|].
    eexists (_ :: calls). simpl in Hrun. rewrite Hrun.
    rewrite <- !app_assoc. split; [done|]. split; [simpl; lia|].
    constructor; [by eexists | done].
Qed.

(** X19.  With a token, when the check runs of a reference come on pages
    the last of which names no next page, [GetCheckRuns] on enough fuel
    returns all of them, page after page in order, making one call per
    page and nothing else. *)
Theorem GetCheckRuns_gathers_every_page gh owner repo ref pages fuel s :
  has_token s →
  paged (fun p => list_check_runs gh owner repo ref p 100) 0 pages →
  length pages ≤ fuel →
  ∃ line calls,
    GetCheckRuns fuel gh owner repo ref s
    = Some (Ok (concat pages),
            {| env := env s; api_calls := api_calls s ++ calls;
               printed := printed s ++ [line] |}) ∧
    length calls = length pages ∧
    Forall (fun c => ∃ p, c = Checks_ListCheckRunsForRef owner repo ref p 100)
      calls.
Proof.
  intros Htok Hpaged Hfuel. unfold GetCheckRuns, Println.
  set (line := "Getting checks [owner: " +:+ owner +:+ ", repo: " +:+ repo
               +:+ ", ref: " +:+ ref +:+ "]").
  exists line. unfold mbind at 1 2. unfold G_bind at 1 2.
  destruct (GitHubClient_token _ (has_token_printed s line Htok)) as [tok ->].
  destruct (GetCheckRuns_loop_paged gh owner repo ref 0 pages Hpaged fuel []
              {| env := env s; api_calls := api_calls s;
                 printed := printed s ++ [line] |} Hfuel)
    as (calls & Hrun & Hlen & Hall).
  by exists calls.
Qed.

Lemma GetCheckRuns_gathers_every_page_witness :
  ∃ line calls,
    GetCheckRuns 2 example_GitHub_paged "ipfs" "kubo" "master"
      (example_Sys "secret")
    = Some (Ok (concat [[{| checkrun_ID := 1; checkrun_Name := "build" |};
                         {| checkrun_ID := 2; checkrun_Name := "test" |}];
                        [{| checkrun_ID := 3; checkrun_Name := "lint" |}]]),
            {| env := env (example_Sys "secret");
               api_calls := api_calls (example_Sys "secret") ++ calls;
               printed := printed (example_Sys "secret") ++ [line] |}) ∧
    length calls
    = length [[{| checkrun_ID := 1; checkrun_Name := "build" |};
               {| checkrun_ID := 2; checkrun_Name := "test" |}];
              [{| checkrun_ID := 3; checkrun_Name := "lint" |}]] ∧
    Forall (fun c => ∃ p, c = Checks_ListCheckRunsForRef "ipfs" "kubo"
                                "master" p 100) calls.
Proof.
  apply (GetCheckRuns_gathers_every_page example_GitHub_paged "ipfs" "kubo"
           "master"
           [[{| checkrun_ID := 1; checkrun_Name := "build" |};
             {| checkrun_ID := 2; checkrun_Name := "test" |}];
            [{| checkrun_ID := 3; checkrun_Name := "lint" |}]]
           2 (example_Sys "secret")).
  - exists "secret". split; [reflexivity | discriminate].
  - apply (paged_more _ 0 _ 1); [reflexivity | done |].
    apply paged_last. reflexivity.
  - simpl. lia.
Defined.

(** X20.  With a token and the search presented on pages,
    [CreateIssueComment] on enough fuel comments on the first issue whose
    title is exactly the one asked for: the comment is created on that
    issue's number, once, after the searches, and the service's answer is
    returned as it is.  When no issue has the title it fails with "issue
    not found" and has only searched: no comment is created. *)
Theorem CreateIssueComment_on_the_issue_found
    gh owner repo title body pages fuel s :
  has_token s →
  paged (fun p => search_issues gh (issue_query owner repo title) p 100)
    0 pages →
  length pages ≤ fuel →
  ∃ lines calls s',
    searches (issue_query owner repo title) calls ∧
    env s' = env s ∧ printed s' = printed s ++ lines ∧
    match first_titled title (concat pages) with
    | None =>
        CreateIssueComment fuel gh owner repo title body s
        = Some (Err "issue not found", s') ∧
        api_calls s' = api_calls s ++ calls
    | Some issue =>
        CreateIssueComment fuel gh owner repo title body s
        = Some (create_comment gh owner repo (issue_Number issue) body, s') ∧
        api_calls s'
        = api_calls s ++ calls
          ++ [Issues_CreateComment owner repo (issue_Number issue) body]
    end.
Proof.
  intros Htok Hpaged Hfuel. unfold CreateIssueComment, Println.
  set (line := "Creating issue comment [owner: " +:+ owner +:+ ", repo: "
               +:+ repo +:+ ", title: " +:+ title +:+ ", body: " +:+ body
               +:+ "]").
  unfold mbind, G_bind. cbv beta.
  destruct (GitHubClient_token _ (has_token_printed s line Htok))
    as [tok Hclient].
  destruct (GetIssue_paged gh owner repo title pages fuel _
              (has_token_printed s line Htok) Hpaged Hfuel)
    as (line2 & calls & Hissue & Hall).
  rewrite !Hclient, !Hissue.
  exists [line; line2], calls.
  destruct (first_titled title (concat pages)) as [issue|]; simpl.
  - eexists. split; [done|]. unfold call.
    split; [|split; [|split]]; [| |by destruct (create_comment _ _ _ _ _)|];
      simpl; by rewrite <- ?app_assoc.
  - eexists. split; [done|]. unfold fail.
    split; [|split; [|split]]; [| |reflexivity|]; simpl;
      by rewrite <- ?app_assoc.
Qed.

Lemma CreateIssueComment_on_the_issue_found_witness :
  ∃ lines calls s',
    searches (issue_query "ipfs" "kubo" "Release 0.18") calls ∧
    env s' = env (example_Sys "secret") ∧
    printed s' = printed (example_Sys "secret") ++ lines ∧
    match first_titled "Release 0.18"
            (concat [[{| issue_Number := 7;
                         issue_Title := "Release 0.18 (draft)" |};
                      {| issue_Number := 9;
                         issue_Title := "Release 0.18" |}]]) with
    | None =>
        CreateIssueComment 1 example_GitHub "ipfs" "kubo" "Release 0.18"
          "text" (example_Sys "secret")
        = Some (Err "issue not found", s') ∧
        api_calls s' = api_calls (example_Sys "secret") ++ calls
    | Some issue =>
        CreateIssueComment 1 example_GitHub "ipfs" "kubo" "Release 0.18"
          "text" (example_Sys "secret")
        = Some (create_comment example_GitHub "ipfs" "kubo"
                  (issue_Number issue) "text", s') ∧
        api_calls s'
        = api_calls (example_Sys "secret") ++ calls
          ++ [Issues_CreateComment "ipfs" "kubo" (issue_Number issue) "text"]
    end.
Proof.
  apply (CreateIssueComment_on_the_issue_found example_GitHub "ipfs" "kubo"
           "Release 0.18" "text"
           [[{| issue_Number := 7; issue_Title := "Release 0.18 (draft)" |};
             {| issue_Number := 9; issue_Title := "Release 0.18" |}]]
           1 (example_Sys "secret")).
  - exists "secret". split; [reflexivity | discriminate].
  - apply paged_last. reflexivity.
  - simpl. lia.
Defined.




(** ** Not found is not an error *)

Lemma Contains_iff (s substr : string) :
  Contains s substr = true ↔ ∃ pre post, s = pre +:+ substr +:+ post.
Proof.
  split.
  - induction s as [|c s IH]; simpl.
    + rewrite orb_false_r. intros (post & ->)%HasPrefix_iff.
      by exists "", post.
    + intros [(post & ->)%HasPrefix_iff|(pre & post & ->)%IH]%orb_true_iff.
      * by exists "", post.
      * by exists (String c pre), post.
  - intros (pre & post & ->). induction pre as [|c pre IH]; simpl.
    + assert (H : HasPrefix (substr +:+ post) substr = true)
        by (apply HasPrefix_iff; eauto).
      destruct (substr +:+ post); simpl in *; by rewrite H.
    + by rewrite IH, orb_true_r.
Qed.

Lemma GetBranch_run gh owner repo name s :
  has_token s →
  ∃ line,
    GetBranch gh owner repo name s
    = Some (match get_branch gh owner repo name with
            | Ok branch => Ok (Some branch)
            | Err err =>
                if Contains err "404 Not Found" then Ok None else Err err
            end,
            {| env := env s;
               api_calls := api_calls s
                            ++ [Repositories_GetBranch owner repo name];
               printed := printed s ++ [line] |}).
Proof.
  intros Htok. unfold GetBranch, Println.
  set (line := "Getting branch [owner: " +:+ owner +:+ ", repo: " +:+ repo
               +:+ ", name: " +:+ name +:+ "]").
  exists line. unfold mbind, G_bind. cbv beta.
  destruct (GitHubClient_token _ (has_token_printed s line Htok))
    as [tok Hclient].
  by rewrite Hclient.
Qed.

(** X22.  With a token, [GetBranch] makes one call and returns the branch
    the service answers with; an error whose text contains "404 Not Found"
    anywhere is returned as no branch and no error; any other error is
    returned as it is. *)
Theorem GetBranch_not_found_is_nil gh owner repo name s :
  has_token s →
  ∃ line,
    GetBranch gh owner repo name s
    = Some (match get_branch gh owner repo name with
            | Ok branch => Ok (Some branch)
            | Err err =>
                if Contains err "404 Not Found" then Ok None else Err err
            end,
            {| env := env s;
               api_calls := api_calls s
                            ++ [Repositories_GetBranch owner repo name];
               printed := printed s ++ [line] |}) ∧
    (∀ err pre post,
       get_branch gh owner repo name = Err err →
       err = pre +:+ "404 Not Found" +:+ post →
       fst <$> GetBranch gh owner repo name s = Some (Ok None)) ∧
    (∀ err,
       get_branch gh owner repo name = Err err →
       (∀ pre post, err ≠ pre +:+ "404 Not Found" +:+ post) →
       fst <$> GetBranch gh owner repo name s = Some (Err err)).
Proof.
  intros Htok. unfold GetBranch, Println.
  set (line := "Getting branch [owner: " +:+ owner +:+ ", repo: " +:+ repo
               +:+ ", name: " +:+ name +:+ "]").
  exists line. unfold mbind, G_bind. cbv beta.
  destruct (GitHubClient_token _ (has_token_printed s line Htok))
    as [tok Hclient].
  rewrite !Hclient. unfold call_unless_404. simpl. split; [done|]. split.
  - intros err pre post -> Herr.
    assert (Hc : Contains err "404 Not Found" = true)
      by (apply Contains_iff; eauto).
    by rewrite Hc.
  - intros err -> Hno.
    destruct (Contains err "404 Not Found") eqn:Hc; [|done].
    apply Contains_iff in Hc as (pre & post & ->). by destruct (Hno pre post).
Qed.

Lemma GetBranch_not_found_is_nil_witness :
  fst <$> GetBranch example_GitHub "ipfs" "kubo" "release"
            (example_Sys "secret")
  = Some (Ok None).
Proof.
  destruct (GetBranch_not_found_is_nil example_GitHub "ipfs" "kubo" "release"
              (example_Sys "secret")) as (line & _ & H404 & _).
  - exists "secret". split; [reflexivity | discriminate].
  - apply (H404 "GET branch: 404 Not Found []" "GET branch: " " []");
      reflexivity.
Defined.

(** ** A branch from the head of another *)

(** X23.  With a token, [CreateBranch] first reads the reference of the
    source branch.  When that fails it returns the error and creates
    nothing; otherwise it creates the reference of the new branch on the
    very object the source reference holds, and only when that succeeded
    asks for the new branch, whose answer, as [GetBranch] gives it, is the
    result. *)
Theorem CreateBranch_from_the_source_head gh owner repo name source s :
  has_token s →
  ∃ lines,
    CreateBranch gh owner repo name source s
    = Some (match get_ref gh owner repo ("refs/heads/" +:+ source) with
            | Err err => Err err
            | Ok r =>
                match create_ref gh owner repo ("refs/heads/" +:+ name) r with
                | Err err => Err err
                | Ok _ =>
                    match get_branch gh owner repo name with
                    | Ok branch => Ok (Some branch)
                    | Err err =>
                        if Contains err "404 Not Found" then Ok None
                        else Err err
                    end
                end
            end,
            {| env := env s;
               api_calls :=
                 api_calls s
                 ++ Git_GetRef owner repo ("refs/heads/" +:+ source)
                 :: match get_ref gh owner repo ("refs/heads/" +:+ source) with
                    | Err _ => []
                    | Ok r =>
                        Git_CreateRef owner repo ("refs/heads/" +:+ name) r
                        :: match create_ref gh owner repo
                                   ("refs/heads/" +:+ name) r with
                           | Err _ => []
                           | Ok _ => [Repositories_GetBranch owner repo name]
                           end
                    end;
               printed := printed s ++ lines |}).
Proof.
  intros Htok. unfold CreateBranch, Println.
  set (line := "Creating branch [owner: " +:+ owner +:+ ", repo: " +:+ repo
               +:+ ", name: " +:+ name +:+ ", source: " +:+ source +:+ "]").
  unfold mbind, G_bind, call. cbv beta.
  destruct (GitHubClient_token _ (has_token_printed s line Htok))
    as [tok Hclient].
  rewrite Hclient.
  destruct (get_ref gh owner repo _) as [r|err]; [|by exists [line]].
  destruct (create_ref gh owner repo _ r) as [?|err]; simpl;
    [|exists [line]; by rewrite <- ?app_assoc].
  match goal with
  | |- context [GetBranch gh owner repo name ?s'] =>
      destruct (GetBranch_run gh owner repo name s')
        as (line2 & Hget)
  end.
  { destruct Htok as (t & Ht & Hne). by exists t. }
  rewrite Hget. exists [line; line2]. simpl. by rewrite <- ?app_assoc.
Qed.

Lemma CreateBranch_from_the_source_head_witness :
  ∃ lines,
    CreateBranch example_GitHub "ipfs" "kubo" "release-v0.18" "master"
      (example_Sys "secret")
    = Some (Ok None,
            {| env := env (example_Sys "secret");
               api_calls :=
                 [Git_GetRef "ipfs" "kubo" "refs/heads/master";
                  Git_CreateRef "ipfs" "kubo" "refs/heads/release-v0.18"
                    "c0ffee";
                  Repositories_GetBranch "ipfs" "kubo" "release-v0.18"];
               printed := lines |}).
Proof.
  apply (CreateBranch_from_the_source_head example_GitHub "ipfs" "kubo"
           "release-v0.18" "master" (example_Sys "secret")).
  exists "secret". split; [reflexivity | discriminate].
Defined.
